(* ===== verification/_CoqProject ===== *)
-Q . S2P
Prelude.v
Cache.v
Recurrence.v
Errors.v
Machine.v
Cost.v
Exact.v
Double.v
Print.v
