(* ===== verification/Prelude.v ===== *)
(** * Verification of [src/Dynamic Interval/solution.js]

    ** The program

    The repository is one JavaScript file of 18 lines.
    - [F(n, k, dp = {})] (lines 1-14) computes a probability by a
      recurrence.  Line 2 returns 0 when [k < 0 || k > n].  Line 3 returns
      0.5 when [n === 1].  Otherwise the result is
      [sum_(i = k..n) 1/(i + 1) * F(n - 1, i - 1)], computed by the
      for-loop of lines 8-11.
    - The memo table [dp] is an object of objects.  Line 5 creates the
      row [dp[n]], line 6 returns [dp[n][k]] when it is defined, and
      line 12 stores the sum.  The same object is passed by reference to
      every recursive call.  The default parameter gives every top-level
      call a fresh [{}].
    - Lines 17-18 print [F(21, 3)] and [F(13, 9)].

    ** The library

    - Prelude.v (this file): the interface [JsNum] of the numbers the
      code uses (the literals 0, 0.5 and 1, an integer-valued number,
      [+], [*], [/]) with its notations in [js_scope]; integer ranges
      [zrange i n] for the loop's indices; induction along [n]
      ([Z_step_ind]); the [outcome] of code that can throw (returns,
      throws a [TypeError], or runs out of fuel) with its bind [obind]
      and the notation [let*] in [outcome_scope]; a hint database [js]
      and the tactic [zcase].
    - Cache.v, Module [Cache]: the table [dp] as
      [gmap Z (gmap Z number)], with [ensure_row] (line 5), [lookup2]
      (line 6) and [store] (line 12).  It also holds the order
      [cache_le] ("only adds entries", a [PreOrder]) and the invariant
      [cache_ok spec] ("every entry equals [spec n k]"), which every
      operation preserves when it writes [spec n k].
    - Recurrence.v, Module [Recurrence], Section [Evaluator] over any
      [JsNum]:
      - [term] is the loop body of line 10 and [for_loop] the loop of
        lines 8-11.  The loop takes the recursive call as an argument.
      - [F] is lines 1-14, with the table threaded through as state.
      - [js_F] is a top-level call with a fresh table, and [F_shared] is
        a sequence of top-level calls on one persisting table.
      - [F_nomemo] is the recurrence without the table, and [F_ref]
        applies it at [n].  [F_ref] is the reference the memoised code
        is proved to implement.
    - Errors.v, Module [Errors]: the accesses as JavaScript evaluates
      them.  [read2] (line 6) and [write2] (line 12) throw a [TypeError]
      when the row [dp[n]] is [undefined].  [for_loop_x] and [F_x] are
      the loop and [F] on these accesses, sequenced by [let*], and
      [js_F_x] is a top-level call.
    - Machine.v, Module [Machine]: the call stack the engine keeps while
      it runs [F], as a small-step machine.  A [state] holds the control
      ([Call n k], [Loop] or [Return v]), the stack of suspended
      activations ([frame]: [n], [k] and the loop's [i] and [sum]), and
      the shared table.  [step] is one transition (lines 2-6 on a
      [Call], the test of line 9 on [Loop], line 10 on a [Return]) and
      [mstep] is its graph, closed under stdpp's [rtc].  [init n k] is a
      top-level call and [depth] the number of activations on the
      stack.
    - Cost.v, Module [Cost]: [F_c] and [for_loop_c] are [F] and
      [for_loop] with one more piece of state, the number of invocations
      of [F] so far, as the metric logs of bedrock2 are threaded.  It
      also holds the size [entries N dp] of the table, counted over
      [triangle N].
    - Exact.v, Module [Exact]: the instance [Q_JsNum] (exact
      rationals, reduced after each step) and the mathematics of the
      values [Fq n k].
    - Double.v, Module [Double]: the instance [float_JsNum] (Rocq's
      primitive binary64 floats, rounding to nearest-even as JavaScript
      does).  It also holds [F_double] (what an engine computes), [main]
      (lines 16-18), [Q_of_float], the shared tables [fill] of exact
      values and of doubles, and the concrete witnesses of the theorems
      of Recurrence.v, Errors.v and Machine.v.
    - Print.v, Module [Print]: the text [console.log] prints.  That is
      ECMAScript's [Number::toString], a routine of the JavaScript
      runtime, not of the repository; it is modelled from the ECMAScript
      specification so that the program's output can be stated.  A
      positive finite double is [m * 2^e] ([valid_pos]), and [rounds_to]
      is round-to-nearest-even onto it.  [shortest] is steps 5-6 (the
      fewest digits [k], then the closest [s]), [fmt_digits] is the
      layout of steps 7-11, and [js_to_string] handles [NaN], the zeros,
      the sign and the infinities.  [main_text] is the text of lines
      17-18, and [parse_number] reads a decimal literal back.

    ** The theorems

    The claims are numbered C1-C26.
    - Recurrence.v.
      - Refinement: [F_refines] (C1).  With enough fuel and a correct
        table, [F] returns [F_ref n k] and a correct, larger table.
      - Totality: [js_F_total] (C2).  Every top-level call terminates,
        [n <= 0] included.
      - Memoisation: [F_recall] (C3).  Repeating a call is served by the
        table.
      - Sharing: [shared_table_agrees] (C26).  Calls made in turn on one
        persisting table return what fresh tables give.
      - Tables: [F_write_fresh] (C9) says line 12 never overwrites an
        entry, so each pair is computed at most once per table.
        [F_frame] (C11) says a call writes no row above [n].
        [F_table_bounded] (C12) says the table holds only pairs
        [0 <= j <= m <= N] with [m <> 1].
    - Errors.v.
      - [F_x_matches_F] (C19): on every table and fuel, the throwing
        model returns what [F] returns.
      - [F_x_never_throws] (C20): no table makes [F] throw, because line
        5 creates the row that lines 6 and 12 access and no call removes
        a row.
      - [js_F_x_returns] (C21): a top-level call returns normally, with
        [F_ref n k].
    - Machine.v.
      - [call_returns] (C23), liveness: from every reachable state a
        top-level call still reaches the stuck final state holding
        [F_ref n k].
      - [stack_shape] (C24): the suspended activations are of
        consecutive rows, none of them row 1 (rule induction).
      - [stack_depth] (C25): for [n >= 1] at most [n] activations, as
        the specification says.
    - Cost.v.
      - [F_c_cost] (C10): a call costs at most [1 + (N + 1)] times the
        number of entries it adds.
      - [js_F_calls] (C5): a top-level call makes at most
        [1 + (n+1)^2 (n+2)/2] invocations, which is the polynomial work
        the specification attributes to the table.
    - Exact.v.
      - Each row [F(n, 0..n)] sums to 1 for [n >= 1] (C4).
      - All values lie in [0, 1] (C6, C7).
      - For [n <= 0] the program's top-level call returns 0 (C8); line
        2's test [k < 0] is what stops [F(0, 0)] from descending.
      - The loop computes a suffix sum (C15), a row does not increase
        (C16), [F(n, 0) = F(n, 1)] (C17), and [F(n, n) = 1/(n+1)!]
        (C18).
    - Double.v.
      - For every call with [0 <= k <= n <= 21] the doubles differ from
        the exact values by a relative error below 1e-15 (C13).
      - For every [n <= 21] and every [k] the double is finite and in
        [0, 1] (C22).
    - Print.v.
      - What the program prints is the exact value: for every call with
        [0 <= k <= n <= 21], the text [console.log] writes for the
        double reads back to a number within relative error
        [2 * 10^-15] of [Fq n k] (C14).  The proof goes through the
        general theory of the file: the digit search meets step 5 of
        [Number::toString] ([shortest_sound]) and never runs out of fuel,
        since every positive finite double has a decimal of at most 17
        digits that rounds to it ([seventeen_digits]); the text reads
        back to a number that rounds to the double ([print_roundtrip]);
        such a number is within [2^-53] of a normal double
        ([rounds_to_close]).

    ** Fuel

    Each call of [F] consumes one unit of fuel and passes its own fuel
    to its loop.  The loop runs [n - k + 1 <= n + 1] times (it is only
    reached with [k >= 0]) and needs one more unit for its final test.
    A call on [n] recurses at most [n + 1] levels deep, down to
    [n = -1].  So fuel [n + 2] is enough (C1, C2), and [js_F] uses it.
    The table [fill] of Double.v runs every call with fuel 23, which is
    enough for the [n <= 21] it is used on.  The bound 21 of C13, C14
    and C22 is the largest [n] the program calls [F] with; these
    theorems are checked on every call up to it by evaluation.  The
    check reads the doubles from one shared table, which agrees with the
    fresh calls by the simulation lemma of Recurrence.v.  In Print.v,
    [shortest] tries [k = 1 .. 17] (fuel 17, enough by
    [seventeen_digits]), and [digits_rev] has fuel 20, enough for the at
    most 17 digits of [s] and the at most 3 of an exponent.  The decimal
    exponent [dexp] is checked on [j] in [[-1076, 1025]]: the binary
    exponent of a double, less 3 and plus 1.

    ** Not modelled

    - The output stream [console.log] writes to.  The text it writes is
      modelled in Print.v.
    - Negative doubles are modelled by their sign and the positive case.
      The theorems of Print.v are stated for positive doubles: the
      printed text of [-x] is ["-"] followed by that of [x].
    - Calls with non-integer or non-number arguments.  The model's [n]
      and [k] are integers.
    - Integers [i + 1] of [2^53] or more, where the JavaScript addition
      would round.  The recursion depth makes them unreachable.
    - A [dp] argument whose rows are not objects (a number, a string):
      the model's table holds objects of numbers only.  With such a
      [dp], line 6 could read a property of a primitive.  The default
      [{}] and every table [F] builds are covered.
    - The string keys of the JavaScript objects: [dp[n]] is keyed by
      the decimal text of [n], which is injective on integers, so keys
      in [Z] are faithful.

    ** Plan for the next steps

    - Compare the polynomial call count (C5) with the exponential call
      count of the recursion without the table, [F_nomemo].
    - Bound the doubles for every [n], beyond the exhaustive check up to
      [n = 21], by an analysis of the accumulated rounding.
    - Relate the order of the table writes on the machine's runs to the
      rows of the stack. *)

From Stdlib Require Import ZArith Lia List.
Import ListNotations.

(** ** The numbers of the program

    JavaScript has one number type.  The recurrence uses the literals [0],
    [0.5] and [1], an integer-valued number [i + 1], and [+], [*] and [/].
    [JsNum] is the interface the evaluator is written against.  Exact.v
    gives an instance with exact rationals.  Double.v gives one with IEEE
    binary64 doubles, which is what a JavaScript engine computes. *)
Class JsNum (R : Type) := {
  js_zero : R;
  js_half : R;
  js_one : R;
  js_of_Z : Z -> R;
  js_add : R -> R -> R;
  js_mul : R -> R -> R;
  js_div : R -> R -> R
}.

Declare Scope js_scope.
Delimit Scope js_scope with js.
Infix "⊕" := js_add (at level 50, left associativity) : js_scope.
Infix "⊗" := js_mul (at level 40, left associativity) : js_scope.
Infix "⊘" := js_div (at level 40, left associativity) : js_scope.

(** ** Integer ranges

    [zrange i n] lists the values [i, i+1, ..., n] that a loop
    [for (let i = k; i <= n; i++)] visits.  It is empty when [n < i]. *)
Fixpoint zseq (i : Z) (c : nat) : list Z :=
  match c with
  | O => []
  | S c' => i :: zseq (Z.succ i) c'
  end.

Definition zrange (i n : Z) : list Z := zseq i (Z.to_nat (n - i + 1)).

Lemma zrange_nil (i n : Z) : (n < i)%Z -> zrange i n = [].
Proof. intros H. unfold zrange. replace (Z.to_nat (n - i + 1)) with O by lia. reflexivity. Qed.

Lemma zrange_cons (i n : Z) : (i <= n)%Z -> zrange i n = i :: zrange (i + 1) n.
Proof.
  intros H. unfold zrange.
  replace (Z.to_nat (n - i + 1)) with (S (Z.to_nat (n - (i + 1) + 1))) by lia.
  reflexivity.
Qed.

Lemma zseq_app (i : Z) (a b : nat) :
  zseq i (a + b) = zseq i a ++ zseq (i + Z.of_nat a) b.
Proof.
  revert i. induction a as [|a IH]; intros i; simpl.
  - now rewrite Z.add_0_r.
  - f_equal. rewrite IH. f_equal. f_equal. lia.
Qed.

(** The last iteration of the loop can be split off. *)
Lemma zrange_snoc (i n : Z) : (i <= n)%Z -> zrange i n = zrange i (n - 1) ++ [n].
Proof.
  intros H. unfold zrange.
  replace (Z.to_nat (n - i + 1)) with (Z.to_nat (n - 1 - i + 1) + 1)%nat by lia.
  rewrite zseq_app. simpl. do 3 f_equal. lia.
Qed.

Lemma in_zseq (j i : Z) (c : nat) : In j (zseq i c) <-> (i <= j < i + Z.of_nat c)%Z.
Proof.
  revert i. induction c as [|c IH]; intros i; simpl.
  - lia.
  - rewrite IH. lia.
Qed.

Lemma in_zrange (j i n : Z) : In j (zrange i n) <-> (i <= j <= n)%Z.
Proof. unfold zrange. rewrite in_zseq. lia. Qed.

Lemma zseq_succ (i : Z) (c : nat) : zseq (Z.succ i) c = map Z.succ (zseq i c).
Proof. revert i. induction c as [|c IH]; intros i; simpl; [reflexivity|]. now rewrite IH. Qed.

Lemma zrange_shift (i n : Z) : zrange (i + 1) (n + 1) = map Z.succ (zrange i n).
Proof. unfold zrange. replace (n + 1 - (i + 1) + 1)%Z with (n - i + 1)%Z by lia. apply zseq_succ. Qed.

(** Induction along the first argument of [F]: every [n < 0] is a base
    case, and [n >= 0] may use [n - 1]. *)
Lemma Z_step_ind (P : Z -> Prop) :
  (forall n, (n < 0)%Z -> P n) ->
  (forall n, (0 <= n)%Z -> P (n - 1)%Z -> P n) ->
  forall n, P n.
Proof.
  intros Hneg Hstep n. destruct (Z_lt_le_dec n 0) as [Hn|Hn]; [now apply Hneg|].
  pattern n. apply natlike_ind; [| |exact Hn].
  - apply Hstep; [lia|]. apply Hneg. lia.
  - intros x Hx Px. apply Hstep; [lia|]. now replace (Z.succ x - 1)%Z with x by lia.
Qed.


(** ** Counting with [filter] *)

Lemma count_le {A : Type} (p : A -> bool) (l : list A) : length (filter p l) <= length l.
Proof. induction l as [|a l IH]; simpl; [lia|]. destruct (p a); simpl; lia. Qed.

(** Two tests that differ only at [x], which the second accepts and the
    first rejects, accept one more element of a list without duplicates. *)
Lemma count_flip {A : Type} (p q : A -> bool) (l : list A) (x : A) :
  NoDup l -> In x l -> p x = false -> q x = true ->
  (forall y, In y l -> y <> x -> p y = q y) ->
  length (filter q l) = S (length (filter p l)).
Proof.
  intros Hnd. revert x. induction Hnd as [|a l Ha Hnd IH]; intros x Hx Hp Hq Hpq; [destruct Hx|].
  destruct Hx as [<-|Hx]; simpl.
  - rewrite Hp, Hq. simpl. f_equal. f_equal. apply filter_ext_in.
    intros y Hy. symmetry. apply Hpq; [now right|]. intros <-. contradiction.
  - assert (Hax : a <> x) by (intros ->; contradiction).
    rewrite (Hpq a (or_introl eq_refl) Hax).
    assert (Heq : length (filter q l) = S (length (filter p l)))
      by (apply (IH x Hx Hp Hq); intros y Hy; apply Hpq; now right).
    destruct (q a); simpl; rewrite Heq; reflexivity.
Qed.

(** ** The triangle of index pairs

    [triangle N] lists the pairs [(m, j)] with [0 <= j <= m <= N], row by
    row: the entries the memo table of [F] can hold. *)
Definition triangle (N : Z) : list (Z * Z) :=
  flat_map (fun m => map (fun j => (m, j)) (zrange 0 m)) (zrange 0 N).

Lemma in_triangle (m j N : Z) : In (m, j) (triangle N) <-> (0 <= j <= m /\ m <= N)%Z.
Proof.
  unfold triangle. rewrite in_flat_map. split.
  - intros (m' & Hm' & Hin). apply in_map_iff in Hin as (j' & Heq & Hj).
    injection Heq as <- <-. apply in_zrange in Hm', Hj. lia.
  - intros Hmj. exists m. split; [apply in_zrange; lia|].
    apply in_map_iff. exists j. split; [reflexivity|apply in_zrange; lia].
Qed.

Lemma NoDup_zseq (i : Z) (c : nat) : NoDup (zseq i c).
Proof.
  revert i. induction c as [|c IH]; intros i; simpl; constructor; [|apply IH].
  rewrite in_zseq. lia.
Qed.

Lemma NoDup_flat_map {A B : Type} (f : A -> list B) (l : list A) :
  NoDup l -> (forall x, NoDup (f x)) ->
  (forall x y b, In b (f x) -> In b (f y) -> x = y) -> NoDup (flat_map f l).
Proof.
  intros Hl Hf Hdis. induction Hl as [|a l Ha Hl IH]; simpl; [constructor|].
  apply NoDup_app; [apply Hf|exact IH|].
  intros b Hb Hb'. apply in_flat_map in Hb' as (x & Hx & Hbx).
  apply Ha. now rewrite (Hdis a x b Hb Hbx).
Qed.

Lemma NoDup_map_pair {A B : Type} (a : A) (l : list B) : NoDup l -> NoDup (map (fun b => (a, b)) l).
Proof.
  induction 1 as [|b l Hb Hl IH]; simpl; constructor; [|exact IH].
  intros Hin. apply in_map_iff in Hin as (b' & Heq & Hb'). injection Heq as ->. contradiction.
Qed.

Lemma NoDup_triangle (N : Z) : NoDup (triangle N).
Proof.
  apply NoDup_flat_map; [apply NoDup_zseq| |].
  - intros m. apply NoDup_map_pair, NoDup_zseq.
  - intros x y b Hx Hy. apply in_map_iff in Hx as (j & <- & _). apply in_map_iff in Hy as (j' & Hy & _).
    now injection Hy.
Qed.

Lemma length_zseq (i : Z) (c : nat) : length (zseq i c) = c.
Proof. revert i. induction c as [|c IH]; intros i; simpl; [reflexivity|]. now rewrite IH. Qed.

Lemma length_zrange (i n : Z) : length (zrange i n) = Z.to_nat (n - i + 1).
Proof. apply length_zseq. Qed.

(** The triangle up to [N] has [(N + 1)(N + 2)/2] pairs. *)
Lemma length_triangle (N : Z) :
  (2 * length (triangle N) = Z.to_nat (N + 1) * (Z.to_nat (N + 1) + 1))%nat.
Proof.
  induction N as [N HN|N HN IH] using Z_step_ind.
  - unfold triangle. rewrite zrange_nil by lia. replace (Z.to_nat (N + 1)) with O by lia. reflexivity.
  - unfold triangle in *. rewrite zrange_snoc by lia. rewrite flat_map_app, length_app. simpl.
    rewrite length_app, length_map. simpl. rewrite length_zrange.
    replace (N - 1 + 1)%Z with N in IH by lia.
    replace (Z.to_nat (N + 1)) with (S (Z.to_nat N)) by lia.
    replace (Z.to_nat (N - 0 + 1)) with (S (Z.to_nat N)) by lia. nia.
Qed.

(** ** Outcomes of code that can throw

    A JavaScript statement returns normally or throws.  The only
    exception the program can raise is the [TypeError] of reading or
    assigning a property of [undefined].  A model run on fuel may also
    stop early. *)
Inductive js_error := TypeError.

Inductive outcome (A : Type) : Type :=
| Ok (a : A)
| Throw (e : js_error)
| OutOfFuel.
Arguments Ok {A} a.
Arguments Throw {A} e.
Arguments OutOfFuel {A}.

(** Sequencing: a throw or an early stop skips the rest of the code. *)
Definition obind {A B : Type} (c : outcome A) (f : A -> outcome B) : outcome B :=
  match c with
  | Ok a => f a
  | Throw e => Throw e
  | OutOfFuel => OutOfFuel
  end.

(** A run of a model that cannot throw, as an outcome. *)
Definition of_option {A : Type} (o : option A) : outcome A :=
  match o with
  | Some a => Ok a
  | None => OutOfFuel
  end.

Module OutcomeNotations.
Declare Scope outcome_scope.
Delimit Scope outcome_scope with outcome.
Notation "'let*' x ':=' c1 'in' c2" := (obind c1 (fun x => c2))
  (at level 100, x pattern, c1 at next level, right associativity,
   format "'let*'  x  ':='  c1  'in' '//' c2") : outcome_scope.
End OutcomeNotations.

Lemma of_option_not_throw {A : Type} (o : option A) (e : js_error) : of_option o <> Throw e.
Proof. destruct o; discriminate. Qed.

(** ** Automation *)
Create HintDb js.
Create Rewrite HintDb js_rw.
#[export] Hint Rewrite zrange_nil using lia : js_rw.
#[export] Hint Rewrite zrange_cons using lia : js_rw.
#[export] Hint Extern 2 (In _ (zrange _ _)) => apply in_zrange; lia : js.

(** Case analysis on the comparisons of a guard such as
    [k < 0 || k > n]. *)
Ltac zcase :=
  repeat match goal with
  | |- context [Z.ltb ?a ?b] => destruct (Z.ltb_spec a b)
  | |- context [Z.leb ?a ?b] => destruct (Z.leb_spec a b)
  | |- context [Z.eqb ?a ?b] => destruct (Z.eqb_spec a b)
  end.
