(* ===== verification/Cache.v ===== *)
(** * The memo table [dp]

    In solution.js the third parameter [dp] of [F] is an object of
    objects: [dp[n]] is created empty on line 5, [dp[n][k]] is read on
    line 6 and written on line 12.  It is passed by reference to every
    recursive call, so all calls of one top-level evaluation share it.
    Here it is a [gmap] from [n] to a [gmap] from [k] to the stored
    number, threaded through the calls explicitly.  This file holds the
    three operations, the order [cache_le] ("only adds entries") and the
    invariant [cache_ok] ("every entry holds the value of a given
    function"). *)

From Stdlib Require Import ZArith Morphisms.
From stdpp Require Import base gmap.
From S2P Require Import Prelude.

Abbreviation cache R := (gmap Z (gmap Z R)).

Module Cache.
Section Ops.
Context {R : Type}.
Implicit Types (dp : cache R) (n k : Z) (v : R).

(** Line 5: [if (!dp[n]) dp[n] = {};] *)
Definition ensure_row (n : Z) (dp : cache R) : cache R :=
  match dp !! n with
  | Some _ => dp
  | None => <[n := ∅]> dp
  end.

(** Line 6: the read [dp[n][k]]; [None] is [undefined]. *)
Definition lookup2 (dp : cache R) (n k : Z) : option R :=
  dp !! n ≫= fun row => row !! k.

(** Line 12: [dp[n][k] = sum;] writes into the row object [dp[n]]. *)
Definition store (dp : cache R) (n k : Z) (v : R) : cache R :=
  <[n := <[k := v]> (default ∅ (dp !! n))]> dp.

(** [dp'] extends [dp]: no entry is removed or overwritten. *)
Definition cache_le (dp dp' : cache R) : Prop :=
  forall n k v, lookup2 dp n k = Some v -> lookup2 dp' n k = Some v.

(** Every entry of [dp] holds the value [spec n k]. *)
Definition cache_ok (spec : Z -> Z -> R) (dp : cache R) : Prop :=
  forall n k v, lookup2 dp n k = Some v -> v = spec n k.

#[global] Instance cache_le_preorder : PreOrder cache_le.
Proof. split; [intros dp n k v H; exact H | intros a b c Hab Hbc n k v H; auto]. Qed.



Lemma lookup2_ensure_row dp n m j : lookup2 (ensure_row n dp) m j = lookup2 dp m j.
Proof.
  unfold ensure_row, lookup2. destruct (dp !! n) eqn:E; [reflexivity|].
  destruct (decide (n = m)) as [->|Hne].
  - rewrite lookup_insert_eq, E. reflexivity.
  - rewrite lookup_insert_ne by exact Hne. reflexivity.
Qed.

Lemma ensure_row_present dp n : is_Some (ensure_row n dp !! n).
Proof.
  unfold ensure_row. destruct (dp !! n) eqn:E.
  - rewrite E. eauto.
  - rewrite lookup_insert_eq. eauto.
Qed.

Lemma ensure_row_id dp n : is_Some (dp !! n) -> ensure_row n dp = dp.
Proof. intros [row Hrow]. unfold ensure_row. now rewrite Hrow. Qed.

Lemma lookup2_store dp n k v m j :
  lookup2 (store dp n k v) m j =
    if decide (m = n /\ j = k) then Some v else lookup2 dp m j.
Proof.
  unfold store, lookup2.
  destruct (decide (n = m)) as [<-|Hnm].
  - rewrite lookup_insert_eq. simpl.
    destruct (decide (k = j)) as [<-|Hkj].
    + rewrite lookup_insert_eq. destruct (decide _); [reflexivity|tauto].
    + rewrite lookup_insert_ne by exact Hkj.
      destruct (decide _) as [[_ ?]|_]; [congruence|].
      destruct (dp !! n); reflexivity.
  - rewrite lookup_insert_ne by exact Hnm.
    destruct (decide _) as [[? _]|_]; [congruence|reflexivity].
Qed.

Lemma lookup2_store_eq dp n k v : lookup2 (store dp n k v) n k = Some v.
Proof. rewrite lookup2_store. destruct (decide _); tauto. Qed.


Lemma ensure_row_other dp n m : m <> n -> ensure_row n dp !! m = dp !! m.
Proof.
  intros Hmn. unfold ensure_row. destruct (dp !! n); [reflexivity|].
  rewrite lookup_insert_ne by congruence. reflexivity.
Qed.

Lemma store_other dp n k v m : m <> n -> store dp n k v !! m = dp !! m.
Proof. intros Hmn. unfold store. rewrite lookup_insert_ne by congruence. reflexivity. Qed.

(** [lookup2] reads only the row it is given. *)
Lemma lookup2_row dp dp' n k : dp' !! n = dp !! n -> lookup2 dp' n k = lookup2 dp n k.
Proof. intros E. unfold lookup2. now rewrite E. Qed.

Lemma store_row_self dp n k v : is_Some (store dp n k v !! n).
Proof. unfold store. rewrite lookup_insert_eq. eauto. Qed.

(** No operation removes a row: a defined [dp[m]] stays defined. *)
Lemma ensure_row_keeps dp n m : is_Some (dp !! m) -> is_Some (ensure_row n dp !! m).
Proof.
  intros Hm. destruct (decide (m = n)) as [->|Hne]; [apply ensure_row_present|].
  now rewrite ensure_row_other.
Qed.

Lemma store_keeps dp n k v m : is_Some (dp !! m) -> is_Some (store dp n k v !! m).
Proof.
  intros Hm. destruct (decide (m = n)) as [->|Hne]; [apply store_row_self|].
  now rewrite store_other.
Qed.

Lemma ensure_row_le dp n : cache_le dp (ensure_row n dp).
Proof. intros m j v H. now rewrite lookup2_ensure_row. Qed.



(** Writing the value the invariant prescribes changes no lookup that
    was already defined. *)
Lemma store_le_ok spec dp n k :
  cache_ok spec dp -> cache_le dp (store dp n k (spec n k)).
Proof.
  intros Hok m j w H. rewrite lookup2_store.
  destruct (decide _) as [[-> ->]|_]; [|exact H].
  f_equal. symmetry. now apply Hok.
Qed.

Lemma cache_ok_empty spec : cache_ok spec ∅.
Proof. intros n k v H. discriminate H. Qed.

Lemma cache_ok_ensure_row spec dp n : cache_ok spec dp -> cache_ok spec (ensure_row n dp).
Proof. intros Hok m j v H. rewrite lookup2_ensure_row in H. now apply Hok. Qed.

Lemma cache_ok_store spec dp n k :
  cache_ok spec dp -> cache_ok spec (store dp n k (spec n k)).
Proof.
  intros Hok m j v H. rewrite lookup2_store in H.
  destruct (decide _) as [[-> ->]|_]; [congruence|now apply Hok].
Qed.
End Ops.
End Cache.

#[export] Hint Extern 1 (Cache.cache_le ?d ?d) => reflexivity : js.
#[export] Hint Resolve Cache.ensure_row_le Cache.cache_ok_ensure_row Cache.cache_ok_store
  Cache.cache_ok_empty Cache.ensure_row_present Cache.ensure_row_keeps Cache.store_keeps : js.
