(* ===== verification/Recurrence.v ===== *)
(** * RecurrenceEvaluator: the function [F] of solution.js

    [F] (lines 1-14) is modelled with an explicit fuel argument.  The
    memo table is threaded through the calls as the state of Cache.v,
    and the for-loop of lines 8-11 is a separate fixpoint, [for_loop],
    which takes the recursive call as an argument.  [F_nomemo] is the
    same recurrence without the memo table, by structural recursion on
    [n + 1].  [F_ref] applies it at a given [n] and is the reference the
    memoised code is proved against.  Everything is generic over the
    number interface [JsNum] of Prelude.v. *)

From Stdlib Require Import ZArith Lia List Morphisms.
From stdpp Require Import base gmap.
From S2P Require Import Prelude Cache.
Import ListNotations.

Module Recurrence.
Section Evaluator.
Context {R : Type} `{JsNum R}.
Local Open Scope js_scope.
Local Open Scope Z_scope.

Abbreviation result := (option (R * cache R)).

(** Line 10: [(1 / (i + 1)) * F(n - 1, i - 1, dp)], once the call has
    returned [v]. *)
Definition term (i : Z) (v : R) : R := (js_one ⊘ js_of_Z (i + 1)) ⊗ v.

(** Lines 8-11: [for (let i = k; i <= n; i++) sum += term], with [call]
    standing for the recursive call [F(n - 1, i - 1, dp)]. *)
Fixpoint for_loop (call : Z -> Z -> cache R -> result) (n : Z) (fuel : nat)
    (i : Z) (sum : R) (dp : cache R) : result :=
  match fuel with
  | O => None
  | S fuel' =>
      if i <=? n then
        match call (n - 1) (i - 1) dp with
        | None => None
        | Some (v, dp') => for_loop call n fuel' (i + 1) (sum ⊕ term i v) dp'
        end
      else Some (sum, dp)
  end.

(** Lines 1-14.  [None] means the fuel ran out. *)
Fixpoint F (fuel : nat) (n k : Z) (dp : cache R) : result :=
  match fuel with
  | O => None
  | S fuel' =>
      if (k <? 0) || (n <? k) then Some (js_zero, dp)
      else if n =? 1 then
        Some (if (k =? 0) || (k =? 1) then js_half else js_zero, dp)
      else
        let dp := Cache.ensure_row n dp in
        match Cache.lookup2 dp n k with
        | Some v => Some (v, dp)
        | None =>
            match for_loop (F fuel') n fuel k js_zero dp with
            | None => None
            | Some (sum, dp') => Some (sum, Cache.store dp' n k sum)
            end
        end
  end.

(** A top-level call [F(n, k)]: the default parameter [dp = {}] gives
    every such call a fresh empty table.  The fuel [n + 2] is enough:
    see [js_F_total]. *)
Definition js_F (n k : Z) : option R :=
  option_map fst (F (S (Z.to_nat (n + 1))) n k ∅).

(** Top-level calls made in turn on one table that outlives them, as in
    a runtime where the default parameter object persisted from call to
    call (section 9 of the specification).  JavaScript evaluates
    [dp = {}] afresh on every call, which is [js_F]. *)
Fixpoint F_shared (calls : list (Z * Z)) (dp : cache R) : list (option R) :=
  match calls with
  | [] => []
  | (n, k) :: rest =>
      match F (S (Z.to_nat (n + 1))) n k dp with
      | Some (v, dp') => Some v :: F_shared rest dp'
      | None => None :: F_shared rest dp
      end
  end.

(** The recurrence of lines 2-11 without the memo table.
    [F_nomemo d k] is [F(d - 1, k)].  When [d = 0], [n = -1] and the
    guard [k < 0 || k > n] holds for every [k]. *)
Fixpoint F_nomemo (d : nat) (k : Z) : R :=
  match d with
  | O => js_zero
  | S d' =>
      let n := Z.of_nat d' in
      if (k <? 0) || (n <? k) then js_zero
      else if n =? 1 then (if (k =? 0) || (k =? 1) then js_half else js_zero)
      else fold_left (fun sum i => sum ⊕ term i (F_nomemo d' (i - 1))) (zrange k n) js_zero
  end.

(** The reference value of [F(n, k)].  Every [n <= -1] gives [d = 0]. *)
Definition F_ref (n k : Z) : R := F_nomemo (Z.to_nat (n + 1)) k.

(** The sum that lines 8-11 compute from [F_ref] in place of the
    memoised calls. *)
Definition ref_sum (n i : Z) (sum : R) : R :=
  fold_left (fun s j => s ⊕ term j (F_ref (n - 1) (j - 1))) (zrange i n) sum.

(** ** The reference recurrence, one equation per branch *)

Lemma F_ref_unfold (n k : Z) :
  F_ref n k =
    if (k <? 0) || (n <? k) then js_zero
    else if n =? 1 then (if (k =? 0) || (k =? 1) then js_half else js_zero)
    else ref_sum n k js_zero.
Proof.
  unfold ref_sum, F_ref. destruct (Z_lt_le_dec n 0) as [Hn|Hn].
  - replace (Z.to_nat (n + 1)) with O by lia. cbn [F_nomemo].
    destruct (Z.ltb_spec k 0), (Z.ltb_spec n k); try reflexivity; lia.
  - replace (Z.to_nat (n + 1)) with (S (Z.to_nat n)) by lia. cbn [F_nomemo].
    rewrite Z2Nat.id by lia. replace (n - 1 + 1) with n by lia. reflexivity.
Qed.

Lemma guard_false (n k : Z) : 0 <= k <= n -> (k <? 0) || (n <? k) = false.
Proof. intros Hk. zcase; simpl; lia. Qed.

Lemma F_ref_out (n k : Z) : k < 0 \/ n < k -> F_ref n k = js_zero.
Proof. intros Hk. rewrite F_ref_unfold. zcase; simpl; lia || reflexivity. Qed.

Lemma F_ref_one (k : Z) : 0 <= k <= 1 -> F_ref 1 k = js_half.
Proof. intros Hk. rewrite F_ref_unfold. zcase; simpl; lia || reflexivity. Qed.

Lemma F_ref_rec (n k : Z) : 0 <= k <= n -> n <> 1 -> F_ref n k = ref_sum n k js_zero.
Proof.
  intros Hk Hn. rewrite F_ref_unfold, guard_false by lia.
  destruct (Z.eqb_spec n 1); [lia|reflexivity].
Qed.

(** Close a step of the simulation: the value matches, the table is
    still right and extends the old one. *)
Ltac sim_close := split; [reflexivity|split; eauto with js].

(** ** The loop against the reference *)

Section LoopSpec.
Variable call : Z -> Z -> cache R -> result.
Variable n : Z.
(** The recursive call returns the reference value, keeps the
    invariant and only adds entries. *)
Hypothesis Hcall : forall j dp, Cache.cache_ok F_ref dp ->
  exists dp', call (n - 1) j dp = Some (F_ref (n - 1) j, dp') /\
              Cache.cache_ok F_ref dp' /\ Cache.cache_le dp dp'.

Lemma for_loop_spec (fuel : nat) (i : Z) (sum : R) (dp : cache R) :
  Cache.cache_ok F_ref dp -> (Z.to_nat (n - i + 1) < fuel)%nat ->
  exists dp', for_loop call n fuel i sum dp = Some (ref_sum n i sum, dp') /\
              Cache.cache_ok F_ref dp' /\ Cache.cache_le dp dp'.
Proof.
  revert i sum dp. induction fuel as [|fuel IH]; intros i sum dp Hok Hf; [lia|].
  cbn [for_loop]. unfold ref_sum. destruct (Z.leb_spec i n).
  - autorewrite with js_rw. cbn [fold_left].
    destruct (Hcall (i - 1) dp Hok) as (dp1 & -> & Hok1 & Hle1).
    destruct (IH (i + 1) (sum ⊕ term i (F_ref (n - 1) (i - 1))) dp1 Hok1 ltac:(lia))
      as (dp2 & -> & Hok2 & Hle2).
    exists dp2. split; [reflexivity|]. split; [exact Hok2|]. etrans; eassumption.
  - autorewrite with js_rw. exists dp. sim_close.
Qed.
End LoopSpec.


(** ** Correctness of the memoised function *)


(** The simulation argument behind [F_refines], shared with the totality proof. *)
Lemma F_simulation (fuel : nat) (n k : Z) (dp : cache R) :
  Cache.cache_ok F_ref dp -> (Z.to_nat (n + 1) < fuel)%nat ->
  exists dp', F fuel n k dp = Some (F_ref n k, dp') /\
              Cache.cache_ok F_ref dp' /\ Cache.cache_le dp dp'.
Proof.
  revert n k dp. induction fuel as [|fuel IH]; intros n k dp Hok Hf; [lia|].
  cbn [F]. destruct (Z.ltb_spec k 0); [|destruct (Z.ltb_spec n k)]; cbn [orb].
  1,2: exists dp; rewrite F_ref_out by lia; sim_close.
  destruct (Z.eqb_spec n 1) as [->|Hn1].
  { exists dp. rewrite F_ref_one by lia. split; [|split; [exact Hok|reflexivity]].
    zcase; reflexivity || lia. }
  pose proof (Cache.cache_ok_ensure_row _ _ n Hok) as Hok0.
  destruct (Cache.lookup2 (Cache.ensure_row n dp) n k) as [v|] eqn:Ehit.
  - exists (Cache.ensure_row n dp). rewrite <- (Hok0 _ _ _ Ehit).
    sim_close.
  - destruct (for_loop_spec (F fuel) n
                (fun j dp1 Hok1 => IH (n - 1) j dp1 Hok1 ltac:(lia))
                (S fuel) k js_zero _ Hok0 ltac:(lia)) as (dp1 & -> & Hok1 & Hle1).
    rewrite <- F_ref_rec by lia.
    exists (Cache.store dp1 n k (F_ref n k)). split; [reflexivity|].
    split; [apply Cache.cache_ok_store, Hok1|].
    etrans; [apply Cache.ensure_row_le|]. etrans; [exact Hle1|].
    apply Cache.store_le_ok, Hok1.
Qed.

(** C1.  Refinement: with fuel above [n + 1] and a table whose entries
    are right, [F] returns the reference value [F_ref n k].  The table it
    returns is still right and keeps every entry of the old one. *)
Theorem F_refines (fuel : nat) (n k : Z) (dp : cache R) :
  Cache.cache_ok F_ref dp -> (Z.to_nat (n + 1) < fuel)%nat ->
  exists dp', F fuel n k dp = Some (F_ref n k, dp') /\
              Cache.cache_ok F_ref dp' /\ Cache.cache_le dp dp'.
Proof. intros Hok Hf. exact (F_simulation fuel n k dp Hok Hf). Qed.

(** C2.  Total correctness of a top-level call [F(n, k)] with a fresh
    table: it terminates for every pair of integers, [n <= 0] included,
    and returns the reference value. *)
Theorem js_F_total (n k : Z) : js_F n k = Some (F_ref n k).
Proof.
  unfold js_F.
  destruct (F_simulation (S (Z.to_nat (n + 1))) n k ∅ (Cache.cache_ok_empty _) ltac:(lia))
    as (dp' & -> & _).
  reflexivity.
Qed.

(** Every call of a sequence made on a correct table returns its
    reference value. *)
Lemma F_shared_ref (calls : list (Z * Z)) (dp : cache R) :
  Cache.cache_ok F_ref dp -> F_shared calls dp = map (fun nk => Some (F_ref (fst nk) (snd nk))) calls.
Proof.
  revert dp. induction calls as [|[n k] rest IH]; intros dp Hok; [reflexivity|].
  cbn [F_shared map fst snd].
  destruct (F_simulation (S (Z.to_nat (n + 1))) n k dp Hok ltac:(lia)) as (dp' & -> & Hok' & _).
  f_equal. exact (IH dp' Hok').
Qed.

(** C26.  No state leaks between top-level calls.  A sequence of calls
    made on one shared table gives, call by call, exactly the results of
    the program's calls, each of which has a fresh table.  So the
    concern of section 9 of the specification does not arise for this
    code: reusing the table is harmless. *)
Theorem shared_table_agrees (calls : list (Z * Z)) :
  F_shared calls ∅ = map (fun nk => js_F (fst nk) (snd nk)) calls.
Proof.
  rewrite (F_shared_ref calls ∅ (Cache.cache_ok_empty _)). apply map_ext. intros [n k].
  cbn [fst snd]. unfold js_F.
  destruct (F_simulation (S (Z.to_nat (n + 1))) n k ∅ (Cache.cache_ok_empty _) ltac:(lia))
    as (dp' & -> & _).
  reflexivity.
Qed.

(** ** What the memo table holds after a call *)

(** A call that passes both guards leaves its result in [dp[n][k]]. *)
Lemma F_stored (fuel : nat) (n k : Z) (dp dp' : cache R) (v : R) :
  F fuel n k dp = Some (v, dp') -> 0 <= k <= n -> n <> 1 ->
  Cache.lookup2 dp' n k = Some v /\ is_Some (dp' !! n).
Proof.
  intros Hrun Hk Hn. destruct fuel as [|f]; [discriminate|]. cbn [F] in Hrun.
  rewrite guard_false in Hrun by lia. destruct (Z.eqb_spec n 1); [lia|].
  destruct (Cache.lookup2 (Cache.ensure_row n dp) n k) as [w|] eqn:Ehit.
  - injection Hrun as -> <-. split; [exact Ehit|apply Cache.ensure_row_present].
  - destruct (for_loop _ _ _ _ _ _) as [[s dp1]|]; [|discriminate].
    injection Hrun as -> <-. split; [apply Cache.lookup2_store_eq|apply Cache.store_row_self].
Qed.

(** C3.  Memoisation: calling [F(n, k, dp)] again on the table the
    first call returned gives the same number and leaves the table as it
    is, whatever the fuel. *)
Theorem F_recall (fuel fuel' : nat) (n k : Z) (dp dp' : cache R) (v : R) :
  F fuel n k dp = Some (v, dp') -> (0 < fuel')%nat -> F fuel' n k dp' = Some (v, dp').
Proof.
  intros Hrun Hf. destruct fuel' as [|f']; [lia|].
  pose proof Hrun as Hrun0.
  destruct fuel as [|f]; [discriminate|]. cbn [F] in Hrun |- *.
  destruct ((k <? 0) || (n <? k)) eqn:Eg; [injection Hrun as -> ->; reflexivity|].
  destruct (n =? 1) eqn:E1; [injection Hrun as -> ->; reflexivity|].
  apply orb_false_iff in Eg as [Eg1 Eg2]. apply Z.ltb_ge in Eg1, Eg2. apply Z.eqb_neq in E1.
  destruct (F_stored _ _ _ _ _ _ Hrun0 ltac:(lia) E1) as [Hv Hrow].
  rewrite Cache.ensure_row_id by exact Hrow. rewrite Hv. reflexivity.
Qed.

(** ** Which entries of the table a call writes *)

Section LoopInvariant.
Variable call : Z -> Z -> cache R -> result.
Variable n : Z.
Variable P : cache R -> Prop.
(** Each recursive call of the loop preserves [P]. *)
Hypothesis Hcall : forall j dp v dp', P dp -> call (n - 1) j dp = Some (v, dp') -> P dp'.

Lemma for_loop_preserves (fuel : nat) (i : Z) (sum s : R) (dp dp' : cache R) :
  P dp -> for_loop call n fuel i sum dp = Some (s, dp') -> P dp'.
Proof.
  revert i sum dp. induction fuel as [|fuel IH]; intros i sum dp HP Hrun; [discriminate|].
  cbn [for_loop] in Hrun. destruct (i <=? n); [|injection Hrun as _ <-; exact HP].
  destruct (call (n - 1) (i - 1) dp) as [[v dp1]|] eqn:E; [|discriminate].
  exact (IH _ _ _ (Hcall _ _ _ _ HP E) Hrun).
Qed.
End LoopInvariant.

(** The rows of [dp] above [n] are those of [dp0]. *)
Definition rows_above (n : Z) (dp0 dp : cache R) : Prop :=
  forall m, n < m -> dp !! m = dp0 !! m.

(** If every recursive call keeps the rows above [n - 1], so does the
    whole loop. *)
Lemma for_loop_rows_above (call : Z -> Z -> cache R -> result) (n : Z) (fuel : nat)
    (i : Z) (sum s : R) (dp0 dp1 : cache R) :
  (forall j dp v dp', call (n - 1) j dp = Some (v, dp') -> rows_above (n - 1) dp dp') ->
  for_loop call n fuel i sum dp0 = Some (s, dp1) -> rows_above (n - 1) dp0 dp1.
Proof.
  intros Hcall Hloop.
  refine (for_loop_preserves call n (rows_above (n - 1) dp0) _ fuel i sum s dp0 dp1 _ Hloop);
    [|now intros m _].
  intros j dpa va dpb Ha Hc m Hm. rewrite (Hcall _ _ _ _ Hc m Hm). now apply Ha.
Qed.

(** The frame argument behind [F_frame], shared with the freshness proof. *)
Lemma F_rows_above (fuel : nat) (n k : Z) (dp dp' : cache R) (v : R) :
  F fuel n k dp = Some (v, dp') -> rows_above n dp dp'.
Proof.
  revert n k dp dp' v. induction fuel as [|f IH]; intros n k dp dp' v Hrun m Hm; [discriminate|].
  cbn [F] in Hrun.
  destruct (_ || _); [now injection Hrun as _ <-|].
  destruct (n =? 1); [now injection Hrun as _ <-|].
  destruct (Cache.lookup2 _ n k).
  { injection Hrun as _ <-. apply Cache.ensure_row_other. lia. }
  destruct (for_loop (F f) n (S f) k js_zero (Cache.ensure_row n dp)) as [[s dp1]|] eqn:E;
    [|discriminate].
  injection Hrun as _ <-. rewrite Cache.store_other by lia.
  rewrite (for_loop_rows_above (F f) n _ _ _ _ _ _ (fun j dpa va dpb => IH (n - 1) j dpa dpb va) E m)
    by lia.
  apply Cache.ensure_row_other. lia.
Qed.

(** C11.  Frame: a call [F(n, k, dp)] changes no row [dp[m]] with
    [m > n]; the recursion only writes below the row it is computing. *)
Theorem F_frame (fuel : nat) (n k : Z) (dp dp' : cache R) (v : R) :
  F fuel n k dp = Some (v, dp') -> rows_above n dp dp'.
Proof. exact (F_rows_above fuel n k dp dp' v). Qed.

(** The freshness argument behind [F_write_fresh], shared with the cost analysis. *)
Lemma loop_leaves_pair (f fuel : nat) (n k : Z) (dp dp1 : cache R) (s : R) :
  Cache.lookup2 (Cache.ensure_row n dp) n k = None ->
  for_loop (F f) n fuel k js_zero (Cache.ensure_row n dp) = Some (s, dp1) ->
  Cache.lookup2 dp1 n k = None.
Proof.
  intros Hmiss Hloop. rewrite <- Hmiss. apply Cache.lookup2_row.
  apply (for_loop_rows_above (F f) n fuel k js_zero s _ _ (fun j dpa va dpb => F_rows_above f (n - 1) j dpa dpb va)
           Hloop n).
  lia.
Qed.

(** C9.  The write of line 12 never overwrites an entry: when
    [F(n, k, dp)] misses the table and runs the loop, [dp[n][k]] is still
    undefined when the loop ends.  So each pair [(n, k)] is computed at
    most once per table. *)
Theorem F_write_fresh (f fuel : nat) (n k : Z) (dp dp1 : cache R) (s : R) :
  Cache.lookup2 (Cache.ensure_row n dp) n k = None ->
  for_loop (F f) n fuel k js_zero (Cache.ensure_row n dp) = Some (s, dp1) ->
  Cache.lookup2 dp1 n k = None.
Proof. exact (loop_leaves_pair f fuel n k dp dp1 s). Qed.

(** The shape of the table: every row [m] lies in [0..N], is not row
    1, and holds only indices [0 <= j <= m]. *)
Definition table_bounded (N : Z) (dp : cache R) : Prop :=
  forall m row, dp !! m = Some row ->
    (0 <= m <= N /\ m <> 1) /\ forall j v, row !! j = Some v -> 0 <= j <= m.

Lemma table_bounded_empty (N : Z) : table_bounded N ∅.
Proof. intros m row Hm. rewrite lookup_empty in Hm. discriminate. Qed.

Lemma ensure_row_bounded (N n : Z) (dp : cache R) :
  0 <= n <= N -> n <> 1 -> table_bounded N dp -> table_bounded N (Cache.ensure_row n dp).
Proof.
  intros Hn Hn1 Hb m row Hm. unfold Cache.ensure_row in Hm.
  destruct (dp !! n) eqn:E; [now apply (Hb m)|].
  destruct (decide (m = n)) as [->|Hne].
  - rewrite lookup_insert_eq in Hm. injection Hm as <-. split; [lia|].
    intros j v Hj. rewrite lookup_empty in Hj. discriminate.
  - rewrite lookup_insert_ne in Hm by congruence. now apply (Hb m).
Qed.

Lemma store_bounded (N n k : Z) (v : R) (dp : cache R) :
  0 <= k <= n -> n <= N -> n <> 1 -> table_bounded N dp ->
  table_bounded N (Cache.store dp n k v).
Proof.
  intros Hk HN Hn1 Hb m row Hm. unfold Cache.store in Hm.
  destruct (decide (m = n)) as [->|Hne].
  - rewrite lookup_insert_eq in Hm. injection Hm as <-. split; [lia|].
    intros j w Hj. destruct (decide (j = k)) as [->|Hjk]; [lia|].
    rewrite lookup_insert_ne in Hj by congruence.
    destruct (dp !! n) as [r|] eqn:E; simpl in Hj; [|rewrite lookup_empty in Hj; discriminate].
    exact (proj2 (Hb n r E) j w Hj).
  - rewrite lookup_insert_ne in Hm by congruence. now apply (Hb m).
Qed.

(** C12.  The table stays small: started from a table whose rows lie in
    [0..N], a call [F(n, k)] with [n <= N] only adds rows [0 <= m <= N],
    [m <> 1], each with indices [0 <= j <= m].  With [F_write_fresh], the loop of
    lines 8-11 runs at most once for each such pair. *)
Theorem F_table_bounded (fuel : nat) (N n k : Z) (dp dp' : cache R) (v : R) :
  n <= N -> table_bounded N dp -> F fuel n k dp = Some (v, dp') -> table_bounded N dp'.
Proof.
  revert n k dp dp' v. induction fuel as [|f IH]; intros n k dp dp' v HN Hb Hrun; [discriminate|].
  cbn [F] in Hrun.
  destruct ((k <? 0) || (n <? k)) eqn:Eg; [now injection Hrun as _ <-|].
  destruct (n =? 1) eqn:E1; [now injection Hrun as _ <-|].
  apply orb_false_iff in Eg as [Eg1 Eg2]. apply Z.ltb_ge in Eg1, Eg2. apply Z.eqb_neq in E1.
  assert (Hb0 : table_bounded N (Cache.ensure_row n dp))
    by (apply ensure_row_bounded; [lia|exact E1|exact Hb]).
  destruct (Cache.lookup2 _ n k); [now injection Hrun as _ <-|].
  destruct (for_loop (F f) n (S f) k js_zero (Cache.ensure_row n dp)) as [[s dp1]|] eqn:E;
    [|discriminate].
  injection Hrun as _ <-. apply store_bounded; [lia|lia|exact E1|].
  refine (for_loop_preserves (F f) n (table_bounded N) _ _ _ _ _ _ _ Hb0 E).
  intros j dpa va dpb Ha Hc. eapply IH; [|exact Ha|exact Hc]. lia.
Qed.

End Evaluator.
End Recurrence.
