(* ===== verification/Errors.v ===== *)
(** * The property accesses of lines 5, 6 and 12 as JavaScript runs them

    Reading a property of [undefined] throws a [TypeError], and so does
    assigning one.  Line 6 reads [dp[n][k]] and line 12 assigns
    [dp[n][k]]; both throw when the row [dp[n]] is missing.  Cache.v
    models these accesses as [lookup2] and [store], which cannot throw.
    This file models them as [read2] and [write2], which can.  It runs
    [F] on them as [F_x], returning an [outcome].

    The theorems show that the guard of line 5 makes the two models
    agree on every table and every fuel, so [F_x] never throws. *)

From Stdlib Require Import ZArith Lia List.
From stdpp Require Import base gmap.
From S2P Require Import Prelude Cache Recurrence.
Import OutcomeNotations.

Module Errors.
Section Throwing.
Context {R : Type} `{JsNum R}.
Local Open Scope js_scope.
Local Open Scope Z_scope.
Local Open Scope outcome_scope.

Abbreviation xresult := (outcome (R * cache R)).

(** Line 6: [dp[n][k]].  Property [k] of [dp[n]] is read, which throws
    when [dp[n]] is [undefined].  Otherwise the entry is returned, with
    [None] standing for [undefined]. *)
Definition read2 (dp : cache R) (n k : Z) : outcome (option R) :=
  match dp !! n with
  | None => Throw TypeError
  | Some row => Ok (row !! k)
  end.

(** Line 12: [dp[n][k] = sum;] assigns into the object [dp[n]].  It
    throws when [dp[n]] is [undefined]. *)
Definition write2 (dp : cache R) (n k : Z) (v : R) : outcome (cache R) :=
  match dp !! n with
  | None => Throw TypeError
  | Some row => Ok (<[n := <[k := v]> row]> dp)
  end.

(** Lines 8-11.  An exception thrown by the recursive call leaves the
    loop. *)
Fixpoint for_loop_x (call : Z -> Z -> cache R -> xresult) (n : Z) (fuel : nat)
    (i : Z) (sum : R) (dp : cache R) : xresult :=
  match fuel with
  | O => OutOfFuel
  | S fuel' =>
      if i <=? n then
        let* (v, dp') := call (n - 1) (i - 1) dp in
        for_loop_x call n fuel' (i + 1) (sum ⊕ Recurrence.term i v) dp'
      else Ok (sum, dp)
  end.

(** Lines 1-14 with the accesses that can throw.  Line 6 reads
    [dp[n][k]] twice.  Both reads give the same value, so the model
    reads it once. *)
Fixpoint F_x (fuel : nat) (n k : Z) (dp : cache R) : xresult :=
  match fuel with
  | O => OutOfFuel
  | S fuel' =>
      if (k <? 0) || (n <? k) then Ok (js_zero, dp)
      else if n =? 1 then
        Ok (if (k =? 0) || (k =? 1) then js_half else js_zero, dp)
      else
        let dp := Cache.ensure_row n dp in
        let* cached := read2 dp n k in
        match cached with
        | Some v => Ok (v, dp)
        | None =>
            let* (sum, dp') := for_loop_x (F_x fuel') n fuel k js_zero dp in
            let* dp'' := write2 dp' n k sum in
            Ok (sum, dp'')
        end
  end.

(** A top-level call [F(n, k)] on the fresh table [{}]. *)
Definition js_F_x (n k : Z) : xresult := F_x (S (Z.to_nat (n + 1))) n k ∅.

(** ** The accesses on a table whose row exists *)

Lemma read2_row (dp : cache R) (n k : Z) :
  is_Some (dp !! n) -> read2 dp n k = Ok (Cache.lookup2 dp n k).
Proof. intros [row E]. unfold read2, Cache.lookup2. now rewrite E. Qed.

Lemma write2_row (dp : cache R) (n k : Z) (v : R) :
  is_Some (dp !! n) -> write2 dp n k v = Ok (Cache.store dp n k v).
Proof. intros [row E]. unfold write2, Cache.store. now rewrite E. Qed.

(** ** Rows are never removed *)

(** A call of [F] keeps every row of the table it is given, so the row
    that line 5 creates is still there at line 12. *)
Lemma F_rows_kept (fuel : nat) (n k m : Z) (dp dp' : cache R) (v : R) :
  Recurrence.F fuel n k dp = Some (v, dp') -> is_Some (dp !! m) -> is_Some (dp' !! m).
Proof.
  revert n k dp dp' v. induction fuel as [|f IH]; intros n k dp dp' v Hrun Hm; [discriminate|].
  cbn [Recurrence.F] in Hrun.
  destruct (_ || _); [now injection Hrun as _ <-|].
  destruct (n =? 1); [now injection Hrun as _ <-|].
  destruct (Cache.lookup2 _ n k); [injection Hrun as _ <-; auto with js|].
  destruct (Recurrence.for_loop _ n _ k js_zero _) as [[s dp1]|] eqn:E; [|discriminate].
  injection Hrun as _ <-. apply Cache.store_keeps.
  refine (Recurrence.for_loop_preserves _ n (fun d => is_Some (d !! m)) _ _ _ _ _ _ _ _ E);
    [|auto with js].
  intros j dpa va dpb Ha Hc. exact (IH _ _ _ _ _ Hc Ha).
Qed.

(** ** The two models agree *)

(** If the recursive calls agree, so does the loop. *)
Lemma for_loop_x_lift (call : Z -> Z -> cache R -> option (R * cache R))
    (call_x : Z -> Z -> cache R -> xresult) (n : Z) :
  (forall a b dp, call_x a b dp = of_option (call a b dp)) ->
  forall fuel i sum dp,
    for_loop_x call_x n fuel i sum dp = of_option (Recurrence.for_loop call n fuel i sum dp).
Proof.
  intros Hc fuel. induction fuel as [|fuel IH]; intros i sum dp; [reflexivity|].
  cbn [for_loop_x Recurrence.for_loop]. destruct (i <=? n); [|reflexivity].
  rewrite Hc. destruct (call (n - 1) (i - 1) dp) as [[v dp1]|]; [apply IH|reflexivity].
Qed.

(** The argument behind the equivalence and no-throw theorems. *)
Lemma F_x_lift (fuel : nat) (n k : Z) (dp : cache R) :
  F_x fuel n k dp = of_option (Recurrence.F fuel n k dp).
Proof.
  revert n k dp. induction fuel as [|f IH]; intros n k dp; [reflexivity|].
  cbn [F_x Recurrence.F].
  destruct (_ || _); [reflexivity|]. destruct (n =? 1); [reflexivity|].
  rewrite read2_row by apply Cache.ensure_row_present. cbn [obind].
  destruct (Cache.lookup2 _ n k); [reflexivity|].
  rewrite (for_loop_x_lift (Recurrence.F f) (F_x f) n IH).
  destruct (Recurrence.for_loop _ n _ k js_zero _) as [[s dp1]|] eqn:E; [|reflexivity].
  cbn [of_option obind]. rewrite write2_row; [reflexivity|].
  refine (Recurrence.for_loop_preserves _ n (fun d => is_Some (d !! n)) _ _ _ _ _ _ _ _ E);
    [|auto with js].
  intros j dpa va dpb Ha Hc. exact (F_rows_kept _ _ _ _ _ _ _ Hc Ha).
Qed.

(** ** The theorems *)

(** C19.  Equivalence: on every table and with every fuel, the model with
    the throwing accesses returns what [Recurrence.F] returns, and runs
    out of fuel exactly when it does.  So the accesses of Cache.v, which
    cannot throw, are faithful for this program. *)
Theorem F_x_matches_F (fuel : nat) (n k : Z) (dp : cache R) :
  F_x fuel n k dp = of_option (Recurrence.F fuel n k dp).
Proof. exact (F_x_lift fuel n k dp). Qed.

(** C20.  No [TypeError]: whatever table [dp] it is handed, [F(n, k, dp)]
    never throws.  Line 5 creates [dp[n]] before line 6 reads from it,
    and no call removes a row before line 12 writes into it. *)
Theorem F_x_never_throws (fuel : nat) (n k : Z) (dp : cache R) (e : js_error) :
  F_x fuel n k dp <> Throw e.
Proof. rewrite F_x_lift. apply of_option_not_throw. Qed.

(** C21.  A top-level call [F(n, k)] returns normally for every pair of
    integers.  It neither throws nor runs past the model's fuel, and it
    returns the reference value [F_ref n k]. *)
Theorem js_F_x_returns (n k : Z) :
  exists dp, js_F_x n k = Ok (Recurrence.F_ref n k, dp).
Proof.
  unfold js_F_x. rewrite F_x_lift.
  destruct (Recurrence.F_simulation (S (Z.to_nat (n + 1))) n k ∅ (Cache.cache_ok_empty _)
              ltac:(lia)) as (dp' & -> & _).
  now exists dp'.
Qed.

End Throwing.
End Errors.
