(* ===== verification/Machine.v ===== *)
(** * The call stack: F as an engine runs it, one step at a time

    Recurrence.v evaluates [F] by structural recursion, so the call
    stack the engine keeps is implicit there.  This file makes it
    explicit.  A [state] holds:
    - the control, which is one of:
      - [Call n k]: an activation of [F(n, k)] starts;
      - [Loop]: the activation on top of the stack tests [i <= n];
      - [Return v]: the running activation returns [v];
    - the stack of suspended activations ([frame]: [n], [k], the loop
      index [i] and the partial [sum]);
    - the shared table [dp].

    [step] is one transition, and [mstep] is its graph as a relation.
    The simulation lemma [F_star] shows that every big-step result of
    [F] is reached by transitions.  The theorems are:
    - a top-level call, whatever the run has done so far, still reaches
      the final state holding [F_ref n k] (liveness);
    - the stack always holds consecutive rows [n0, n0 - 1, ...]
      (invariant, by induction on the transitions);
    - the depth of the call stack is at most [n0] for [n0 >= 1].  At
      [n0 = 0] the bound fails: [F(0, 0)] calls [F(-1, -1)] from its
      loop, so two activations are on the stack. *)

From Stdlib Require Import ZArith Lia List.
From stdpp Require Import base gmap relations.
From S2P Require Import Prelude Cache Recurrence.
Import ListNotations.

Module Machine.
Section Stack.
Context {R : Type} `{JsNum R}.
Local Open Scope js_scope.
Local Open Scope Z_scope.

(** An activation of [F(n, k)] suspended in its for-loop (lines 8-11)
    at index [i] with the partial [sum], while its recursive call
    [F(n - 1, i - 1, dp)] runs above it. *)
Record frame := Frame { fr_n : Z; fr_k : Z; fr_i : Z; fr_sum : R }.

Inductive control :=
| Call (n k : Z)
| Loop
| Return (v : R).

Record state := State { ctl : control; stack : list frame; table : cache R }.

(** One transition.  [Call] runs lines 2-6 and enters the loop (line 8)
    on a miss.  [Loop] runs the test of line 9: it calls [F(n - 1, i - 1)]
    or leaves the loop and runs lines 12-13.  [Return] hands the value to
    the suspended caller, which adds its term (line 10) and increments
    [i].  A final state ([Return v] on an empty stack) has no
    transition. *)
Definition step (s : state) : option state :=
  match ctl s, stack s with
  | Call n k, stk =>
      if (k <? 0) || (n <? k) then Some (State (Return js_zero) stk (table s))
      else if n =? 1 then
        Some (State (Return (if (k =? 0) || (k =? 1) then js_half else js_zero)) stk (table s))
      else
        let dp := Cache.ensure_row n (table s) in
        match Cache.lookup2 dp n k with
        | Some v => Some (State (Return v) stk dp)
        | None => Some (State Loop (Frame n k k js_zero :: stk) dp)
        end
  | Loop, Frame n k i sum :: stk =>
      if i <=? n then Some (State (Call (n - 1) (i - 1)) (Frame n k i sum :: stk) (table s))
      else Some (State (Return sum) stk (Cache.store (table s) n k sum))
  | Return v, Frame n k i sum :: stk =>
      Some (State Loop (Frame n k (i + 1) (sum ⊕ Recurrence.term i v) :: stk) (table s))
  | _, [] => None
  end.

Definition mstep (s s' : state) : Prop := step s = Some s'.

(** A top-level call [F(n, k)] with the default table [{}]. *)
Definition init (n k : Z) : state := State (Call n k) [] ∅.

(** The number of activations of [F] on the engine's stack: the
    suspended ones, and the one starting in a [Call]. *)
Definition depth (s : state) : nat :=
  length (stack s) + match ctl s with Call _ _ => 1 | _ => 0 end.

(** Run at most [fuel] transitions. *)
Fixpoint run (fuel : nat) (s : state) : state :=
  match fuel with
  | O => s
  | S f => match step s with Some s' => run f s' | None => s end
  end.

End Stack.

Arguments Frame {R} _ _ _ _.
Arguments Call {R} _ _.
Arguments Loop {R}.
Arguments Return {R} _.
Arguments State {R} _ _ _.
Arguments frame R : clear implicits.
Arguments control R : clear implicits.
Arguments state R : clear implicits.

Section Runs.
Context {R : Type} `{JsNum R}.
Local Open Scope js_scope.
Local Open Scope Z_scope.
Implicit Types (s : state R) (stk : list (frame R)) (dp : cache R).

(** ** Transitions are deterministic, and final states are stuck *)

Lemma mstep_det (a b c : state R) : mstep a b -> mstep a c -> b = c.
Proof. unfold mstep. congruence. Qed.

Lemma final_stuck (v : R) dp : nf mstep (State (Return v) [] dp).
Proof. intros [s Hs]. discriminate Hs. Qed.

(** A run that ends in a stuck state passes through every state that
    any run from the same start reaches. *)
Lemma rtc_det_stuck (a b c : state R) :
  rtc mstep a b -> rtc mstep a c -> nf mstep c -> rtc mstep b c.
Proof.
  intros Hab. revert c. induction Hab as [a|a a' b Ha Hab IH]; intros c Hac Hc; [exact Hac|].
  inversion Hac as [|? a'' ? Ha' Hac']; subst.
  - exfalso. exact (Hc (ex_intro _ _ Ha)).
  - apply IH; [|exact Hc]. rewrite (mstep_det _ _ _ Ha Ha'). exact Hac'.
Qed.

Lemma run_rtc (fuel : nat) s : rtc mstep s (run fuel s).
Proof.
  revert s. induction fuel as [|f IH]; intros s; cbn [run]; [reflexivity|].
  destruct (step s) as [s'|] eqn:E; [|reflexivity].
  eapply rtc_l; [exact E|apply IH].
Qed.

(** ** From the recursive model to transitions *)

(** The transitions [Call] takes, case by case. *)
Ltac call_step := unfold mstep; cbn [step ctl stack table].

Section LoopRuns.
Variable call : Z -> Z -> cache R -> option (R * cache R).
Variables (n k : Z) (stk : list (frame R)).
(** Each recursive call the loop makes is run by the machine above the
    loop's frame, whatever lies below. *)
Hypothesis Hcall : forall j dp v dp', call (n - 1) j dp = Some (v, dp') ->
  forall stk', rtc mstep (State (Call (n - 1) j) stk' dp) (State (Return v) stk' dp').

Lemma for_loop_star (fuel : nat) (i : Z) (sum s : R) dp dp' :
  Recurrence.for_loop call n fuel i sum dp = Some (s, dp') ->
  rtc mstep (State Loop (Frame n k i sum :: stk) dp) (State (Return s) stk (Cache.store dp' n k s)).
Proof.
  revert i sum dp. induction fuel as [|f IH]; intros i sum dp Hrun; [discriminate|].
  cbn [Recurrence.for_loop] in Hrun. destruct (i <=? n) eqn:Ei.
  - destruct (call (n - 1) (i - 1) dp) as [[v dp1]|] eqn:E; [|discriminate].
    eapply rtc_l; [call_step; rewrite Ei; reflexivity|].
    eapply rtc_trans; [exact (Hcall _ _ _ _ E _)|].
    eapply rtc_l; [call_step; reflexivity|]. exact (IH _ _ _ Hrun).
  - injection Hrun as <- <-. apply rtc_once. call_step. rewrite Ei. reflexivity.
Qed.
End LoopRuns.

(** The simulation behind [call_returns]: a call [F(n, k, dp)] made
    above any stack [stk] runs to [Return v] on that stack, with the
    value and the table the model of Recurrence.v computes. *)
Lemma F_star (fuel : nat) (n k : Z) dp (v : R) dp' stk :
  Recurrence.F fuel n k dp = Some (v, dp') ->
  rtc mstep (State (Call n k) stk dp) (State (Return v) stk dp').
Proof.
  revert n k dp v dp' stk. induction fuel as [|f IH]; intros n k dp v dp' stk Hrun; [discriminate|].
  cbn [Recurrence.F] in Hrun.
  destruct ((k <? 0) || (n <? k)) eqn:Eg.
  { injection Hrun as <- <-. apply rtc_once. call_step. rewrite Eg. reflexivity. }
  destruct (n =? 1) eqn:E1.
  { injection Hrun as <- <-. apply rtc_once. call_step. rewrite Eg, E1. reflexivity. }
  destruct (Cache.lookup2 (Cache.ensure_row n dp) n k) as [w|] eqn:Ehit.
  { injection Hrun as <- <-. apply rtc_once. call_step. rewrite Eg, E1, Ehit. reflexivity. }
  destruct (Recurrence.for_loop (Recurrence.F f) n (S f) k js_zero (Cache.ensure_row n dp))
    as [[s dp1]|] eqn:E; [|discriminate].
  injection Hrun as <- <-.
  eapply rtc_l; [call_step; rewrite Eg, E1, Ehit; reflexivity|].
  exact (for_loop_star (Recurrence.F f) n k stk
           (fun j d w d' Hc stk' => IH _ _ _ _ _ stk' Hc) _ _ _ _ _ _ E).
Qed.

(** ** The shape of the stack *)

(** [chain m stk n0]: the frames of [stk], from the top, are activations
    of rows [m, m + 1, ..., n0].  Each row passed both guards ([0 <= m])
    and is not row 1, which line 3 answers without a loop. *)
Fixpoint chain (m : Z) stk (n0 : Z) : Prop :=
  match stk with
  | [] => m = n0 + 1
  | f :: rest => fr_n f = m /\ 0 <= m /\ m <> 1 /\ chain (m + 1) rest n0
  end.

Definition chain_top stk (n0 : Z) : Prop :=
  match stk with
  | [] => True
  | f :: _ => chain (fr_n f) stk n0
  end.

(** The invariant of a run started by [F(n0, k0)].  A [Call n] is made by
    the activation of row [n + 1] on top of the stack (or is the
    top-level call, [n = n0]).  [Loop] runs the activation on top of a
    non-empty stack. *)
Definition stack_inv (n0 : Z) s : Prop :=
  match ctl s with
  | Call n _ => chain (n + 1) (stack s) n0
  | Loop => stack s <> [] /\ chain_top (stack s) n0
  | Return _ => chain_top (stack s) n0
  end.

Lemma chain_top_of (m : Z) stk (n0 : Z) : chain m stk n0 -> chain_top stk n0.
Proof.
  destruct stk as [|f rest]; cbn; [auto|]. intros (Hf & Hrest). rewrite Hf. auto.
Qed.

Lemma chain_length (m : Z) stk (n0 : Z) : chain m stk n0 -> Z.of_nat (length stk) = n0 + 1 - m.
Proof.
  revert m. induction stk as [|f rest IH]; cbn [chain length]; intros m Hc; [lia|].
  destruct Hc as (_ & _ & _ & Hc). pose proof (IH _ Hc). lia.
Qed.

(** Rows are consecutive and skip row 1, so above [n0 >= 1] no frame is
    below row 2. *)
Lemma chain_low (m : Z) stk (n0 : Z) : chain m stk n0 -> stk <> [] -> 1 <= n0 -> 2 <= m.
Proof.
  revert m. induction stk as [|f rest IH]; cbn; intros m Hc Hne Hn0; [congruence|].
  destruct Hc as (_ & Hm0 & Hm1 & Hc). destruct rest as [|g rest'].
  - cbn in Hc. lia.
  - assert (2 <= m + 1) by (apply (IH _ Hc); [discriminate|exact Hn0]). lia.
Qed.

Lemma chain_top_depth stk (n0 : Z) :
  chain_top stk n0 -> 1 <= n0 -> Z.of_nat (length stk) <= n0 - 1.
Proof.
  destruct stk as [|f rest]; cbn [chain_top length]; intros Hc Hn0; [lia|].
  pose proof (chain_low _ _ _ Hc ltac:(discriminate) Hn0).
  pose proof (chain_length _ _ _ Hc) as Hl. cbn [length] in Hl. lia.
Qed.

Lemma stack_inv_step (n0 : Z) s s' : stack_inv n0 s -> mstep s s' -> stack_inv n0 s'.
Proof.
  unfold mstep. destruct s as [[n k| |v] stk dp]; cbn [step ctl stack table stack_inv].
  - intros Hc Hs.
    destruct ((k <? 0) || (n <? k)) eqn:Eg; [injection Hs as <-; exact (chain_top_of _ _ _ Hc)|].
    destruct (n =? 1) eqn:E1; [injection Hs as <-; exact (chain_top_of _ _ _ Hc)|].
    apply orb_false_iff in Eg as [Eg1 Eg2]. apply Z.ltb_ge in Eg1, Eg2. apply Z.eqb_neq in E1.
    destruct (Cache.lookup2 _ n k); injection Hs as <-; [exact (chain_top_of _ _ _ Hc)|].
    cbn. split; [discriminate|]. repeat split; [lia|exact E1|exact Hc].
  - destruct stk as [|[n k i sum] rest]; [discriminate|]. intros [_ Hc] Hs. cbn in Hc.
    destruct (i <=? n); injection Hs as <-; cbn.
    + replace (n - 1 + 1) with n by lia. exact Hc.
    + destruct Hc as (_ & _ & _ & Hc). exact (chain_top_of _ _ _ Hc).
  - destruct stk as [|[n k i sum] rest]; [discriminate|]. intros Hc Hs.
    injection Hs as <-. cbn in *. split; [discriminate|exact Hc].
Qed.

(** Rule induction over the transitions: the invariant behind
    [stack_shape] and [stack_depth]. *)
Lemma reach_inv (n0 k0 : Z) s : rtc mstep (init n0 k0) s -> stack_inv n0 s.
Proof.
  intros Hr. assert (H0 : stack_inv n0 (init n0 k0)) by (cbn; reflexivity).
  revert H0. induction Hr as [a|a b c Hab Hbc IH]; intros Ha; [exact Ha|].
  apply IH, (stack_inv_step _ _ _ Ha Hab).
Qed.

Lemma inv_depth (n0 : Z) s : stack_inv n0 s -> 1 <= n0 -> (depth s <= Z.to_nat n0)%nat.
Proof.
  destruct s as [[n k| |v] stk dp]; unfold depth; cbn [stack_inv ctl stack]; intros Hc Hn0.
  - destruct stk as [|f rest]; cbn [length]; [lia|].
    pose proof (chain_low _ _ _ Hc ltac:(discriminate) Hn0).
    pose proof (chain_length _ _ _ Hc) as Hl. cbn [length] in Hl. lia.
  - pose proof (chain_top_depth _ _ (proj2 Hc) Hn0). lia.
  - pose proof (chain_top_depth _ _ Hc Hn0). lia.
Qed.

(** ** The theorems *)

(** C23.  Liveness: whatever state a top-level call [F(n, k)] has reached,
    it still reaches a final state.  There [Return] holds [F_ref n k] on
    an empty stack, and no transition leaves that state.  Transitions are
    deterministic, so every run ends there. *)
Theorem call_returns (n k : Z) s :
  rtc mstep (init n k) s ->
  exists dp, rtc mstep s (State (Return (Recurrence.F_ref n k)) [] dp) /\
             nf mstep (State (Return (Recurrence.F_ref n k)) [] dp).
Proof.
  intros Hs.
  destruct (Recurrence.F_simulation (S (Z.to_nat (n + 1))) n k ∅ (Cache.cache_ok_empty _)
              ltac:(lia)) as (dp & Hrun & _).
  exists dp. split; [|apply final_stuck].
  apply (rtc_det_stuck _ _ _ Hs); [exact (F_star _ _ _ _ _ _ [] Hrun)|apply final_stuck].
Qed.

(** C24.  Invariant of the stack: in every state a top-level call
    [F(n0, k0)] reaches, the suspended activations are of the consecutive
    rows [.., n0 - 1, n0].  Each of them passed both guards and is not
    row 1. *)
Theorem stack_shape (n0 k0 : Z) s : rtc mstep (init n0 k0) s -> stack_inv n0 s.
Proof. exact (reach_inv n0 k0 s). Qed.

(** C25.  Call depth: for [n0 >= 1] a top-level call [F(n0, k0)] never has
    more than [n0] activations of [F] on the engine's stack, as the
    specification says (section 5). *)
Theorem stack_depth (n0 k0 : Z) s :
  1 <= n0 -> rtc mstep (init n0 k0) s -> (depth s <= Z.to_nat n0)%nat.
Proof. intros Hn0 Hs. exact (inv_depth n0 s (reach_inv n0 k0 s Hs) Hn0). Qed.

End Runs.
End Machine.
