(* ===== verification/Cost.v ===== *)
(** * The work of the memoised recursion

    The specification says the memo table is what keeps the recursion
    polynomial.  [F_c] and [for_loop_c] are [Recurrence.F] and
    [Recurrence.for_loop] carrying one more piece of state: the number of
    invocations of [F] made so far.  [F_c_forget] proves that dropping
    the counter gives back [Recurrence.F] exactly, so the counts are
    those of the program's calls.  The table is measured by
    [entries N dp], the number of pairs [0 <= j <= m <= N] it defines.
    Every loop run adds one such pair ([Recurrence.F_write_fresh]), and a loop makes at most
    [N + 1] calls, so the number of invocations is at most
    [1 + (N + 1) * entries].  That is cubic in [n] for a top-level
    call. *)

From Stdlib Require Import ZArith Lia List.
From stdpp Require Import base gmap.
From S2P Require Import Prelude Cache Recurrence.
Import ListNotations.

Module Cost.
Section Counted.
Context {R : Type} `{JsNum R}.
Local Open Scope js_scope.
Local Open Scope Z_scope.

Abbreviation cresult := (option (R * cache R * nat)).

(** Lines 8-11 with the number of invocations [calls] made so far. *)
Fixpoint for_loop_c (call : Z -> Z -> cache R -> cresult) (n : Z) (fuel : nat)
    (i : Z) (sum : R) (dp : cache R) (calls : nat) : cresult :=
  match fuel with
  | O => None
  | S fuel' =>
      if i <=? n then
        match call (n - 1) (i - 1) dp with
        | None => None
        | Some (v, dp', c) =>
            for_loop_c call n fuel' (i + 1) (sum ⊕ Recurrence.term i v) dp' (calls + c)
        end
      else Some (sum, dp, calls)
  end.

(** Lines 1-14; the count includes this invocation. *)
Fixpoint F_c (fuel : nat) (n k : Z) (dp : cache R) : cresult :=
  match fuel with
  | O => None
  | S fuel' =>
      if (k <? 0) || (n <? k) then Some (js_zero, dp, 1%nat)
      else if n =? 1 then
        Some (if (k =? 0) || (k =? 1) then js_half else js_zero, dp, 1%nat)
      else
        let dp := Cache.ensure_row n dp in
        match Cache.lookup2 dp n k with
        | Some v => Some (v, dp, 1%nat)
        | None =>
            match for_loop_c (F_c fuel') n fuel k js_zero dp 1 with
            | None => None
            | Some (sum, dp', c) => Some (sum, Cache.store dp' n k sum, c)
            end
        end
  end.

Definition erase (r : cresult) : option (R * cache R) :=
  option_map (fun '(v, dp, _) => (v, dp)) r.

Lemma for_loop_c_erase (call_c : Z -> Z -> cache R -> cresult)
    (call : Z -> Z -> cache R -> option (R * cache R)) (n : Z) :
  (forall a b dp, erase (call_c a b dp) = call a b dp) ->
  forall fuel i sum dp c0,
    erase (for_loop_c call_c n fuel i sum dp c0) = Recurrence.for_loop call n fuel i sum dp.
Proof.
  intros Hc fuel. induction fuel as [|fuel IH]; intros i sum dp c0; [reflexivity|].
  cbn [for_loop_c Recurrence.for_loop]. destruct (i <=? n); [|reflexivity].
  rewrite <- Hc. destruct (call_c (n - 1) (i - 1) dp) as [[[v dp'] c]|]; [apply IH|reflexivity].
Qed.

(** Erasure, shared with the cost proofs. *)
Lemma F_c_forget (fuel : nat) (n k : Z) (dp : cache R) :
  erase (F_c fuel n k dp) = Recurrence.F fuel n k dp.
Proof.
  revert n k dp. induction fuel as [|fuel IH]; intros n k dp; [reflexivity|].
  cbn [F_c Recurrence.F].
  destruct (_ || _); [reflexivity|]. destruct (n =? 1); [reflexivity|].
  destruct (Cache.lookup2 _ n k); [reflexivity|].
  rewrite <- (for_loop_c_erase (F_c fuel) (Recurrence.F fuel) n IH (S fuel) k js_zero _ 1).
  destruct (for_loop_c _ _ _ _ _ _ _) as [[[s dp'] c]|]; reflexivity.
Qed.

(** ** The size of the table *)

Definition defined (dp : cache R) (p : Z * Z) : bool :=
  match Cache.lookup2 dp (fst p) (snd p) with Some _ => true | None => false end.

(** The number of pairs [0 <= j <= m <= N] the table defines. *)
Definition entries (N : Z) (dp : cache R) : nat := length (List.filter (defined dp) (triangle N)).

Lemma entries_ensure_row (N n : Z) (dp : cache R) :
  entries N (Cache.ensure_row n dp) = entries N dp.
Proof.
  unfold entries. f_equal. apply filter_ext. intros [m j]. unfold defined.
  now rewrite Cache.lookup2_ensure_row.
Qed.

(** Writing an undefined pair of the triangle adds one entry. *)
(** Writing an undefined pair of the triangle adds one entry. *)
Lemma entries_store (N n k : Z) (v : R) (dp : cache R) :
  Cache.lookup2 dp n k = None -> 0 <= k <= n -> n <= N ->
  entries N (Cache.store dp n k v) = S (entries N dp).
Proof.
  intros Hnone Hk HN. unfold entries.
  apply (count_flip _ _ _ (n, k) (NoDup_triangle N)).
  - apply in_triangle. lia.
  - unfold defined. simpl. now rewrite Hnone.
  - unfold defined. simpl. now rewrite Cache.lookup2_store_eq.
  - intros [m j] _ Hne. unfold defined. simpl. rewrite Cache.lookup2_store.
    destruct (decide _) as [[-> ->]|_]; [contradiction|reflexivity].
Qed.

Lemma entries_bound (N : Z) (dp : cache R) : (entries N dp <= length (triangle N))%nat.
Proof. apply count_le. Qed.

(** ** Counting the invocations *)

Section LoopCost.
Variable call : Z -> Z -> cache R -> cresult.
Variables (n N : Z) (w : nat).
(** Each recursive call pays for itself: its invocations, less one, are
    covered by [w] per entry it adds to the table. *)
Hypothesis Hcall : forall j dp v dp' c, call (n - 1) j dp = Some (v, dp', c) ->
  (c + w * entries N dp <= 1 + w * entries N dp')%nat.

Lemma for_loop_c_cost (fuel : nat) (i : Z) (sum s : R) (dp dp1 : cache R) (c0 c1 : nat) :
  for_loop_c call n fuel i sum dp c0 = Some (s, dp1, c1) ->
  (c1 + w * entries N dp <= c0 + Z.to_nat (n - i + 1) + w * entries N dp1)%nat.
Proof.
  revert i sum dp c0. induction fuel as [|fuel IH]; intros i sum dp c0 Hrun; [discriminate|].
  cbn [for_loop_c] in Hrun. destruct (Z.leb_spec i n).
  - destruct (call (n - 1) (i - 1) dp) as [[[v dpa] c]|] eqn:E; [|discriminate].
    pose proof (Hcall _ _ _ _ _ E) as Hc. pose proof (IH _ _ _ _ Hrun) as Hl.
    replace (Z.to_nat (n - i + 1)) with (S (Z.to_nat (n - (i + 1) + 1))) by lia. lia.
  - injection Hrun as <- <- <-. lia.
Qed.
End LoopCost.

(** The amortised bound behind [F_c_cost], shared with the top-level bound. *)
Lemma F_c_amortised (fuel : nat) (N n k : Z) (dp dp' : cache R) (v : R) (c : nat) :
  n <= N -> F_c fuel n k dp = Some (v, dp', c) ->
  (c + Z.to_nat (N + 1) * entries N dp <= 1 + Z.to_nat (N + 1) * entries N dp')%nat.
Proof.
  revert n k dp dp' v c. induction fuel as [|f IH]; intros n k dp dp' v c HN Hrun; [discriminate|].
  pose proof Hrun as Hrun0. cbn [F_c] in Hrun.
  destruct ((k <? 0) || (n <? k)) eqn:Eg; [injection Hrun as _ <- <-; lia|].
  destruct (n =? 1); [injection Hrun as _ <- <-; lia|].
  apply orb_false_iff in Eg as [Eg1 Eg2]. apply Z.ltb_ge in Eg1, Eg2.
  destruct (Cache.lookup2 (Cache.ensure_row n dp) n k) eqn:Ehit.
  { injection Hrun as _ <- <-. rewrite entries_ensure_row. lia. }
  destruct (for_loop_c (F_c f) n (S f) k js_zero (Cache.ensure_row n dp) 1) as [[[s dp1] c1]|] eqn:E;
    [|discriminate].
  injection Hrun as <- <- <-.
  assert (Hfresh : Cache.lookup2 dp1 n k = None).
  { apply (Recurrence.loop_leaves_pair f (S f) n k dp dp1 s Ehit).
    rewrite <- (for_loop_c_erase (F_c f) (Recurrence.F f) n (F_c_forget f) (S f) k js_zero _ 1), E.
    reflexivity. }
  rewrite entries_store by (assumption || lia).
  pose proof (for_loop_c_cost (F_c f) n N (Z.to_nat (N + 1))
                (fun j dpa va dpb cb Hc => IH (n - 1) j dpa dpb va cb ltac:(lia) Hc)
                (S f) k js_zero s _ dp1 1 c1 E) as Hl.
  rewrite entries_ensure_row in Hl.
  assert (Z.to_nat (n - k + 1) <= Z.to_nat (N + 1))%nat by lia. nia.
Qed.

(** C10.  Amortised cost: a call made on a table, with [n <= N], makes
    at most [1 + (N + 1) * a] invocations of [F], where [a] is the number
    of pairs it adds to the table. *)
Theorem F_c_cost (fuel : nat) (N n k : Z) (dp dp' : cache R) (v : R) (c : nat) :
  n <= N -> F_c fuel n k dp = Some (v, dp', c) ->
  (c + Z.to_nat (N + 1) * entries N dp <= 1 + Z.to_nat (N + 1) * entries N dp')%nat.
Proof. intros HN Hrun. exact (F_c_amortised fuel N n k dp dp' v c HN Hrun). Qed.

Lemma entries_empty (N : Z) : entries N (∅ : cache R) = 0%nat.
Proof. unfold entries. induction (triangle N) as [|p l IH]; [reflexivity|exact IH]. Qed.

(** A top-level call [F(n, k)] with its fresh table, counted. *)
Definition js_F_c (n k : Z) : cresult := F_c (S (Z.to_nat (n + 1))) n k ∅.

(** C5.  Polynomial work: a top-level call [F(n, k)] terminates after at
    most [1 + (n + 1)^2 (n + 2) / 2] invocations of [F], a number cubic
    in [n]. *)
Theorem js_F_calls (n k : Z) :
  exists v dp c, js_F_c n k = Some (v, dp, c) /\
    (2 * c <= 2 + Z.to_nat (n + 1) * (Z.to_nat (n + 1) * (Z.to_nat (n + 1) + 1)))%nat.
Proof.
  unfold js_F_c.
  destruct (Recurrence.F_simulation (S (Z.to_nat (n + 1))) n k ∅ (Cache.cache_ok_empty _) ltac:(lia))
    as (dp & Hrun & _).
  rewrite <- F_c_forget in Hrun.
  destruct (F_c _ n k ∅) as [[[v dp'] c]|] eqn:E; [|discriminate].
  exists v, dp', c. split; [reflexivity|].
  pose proof (F_c_amortised _ n n k ∅ dp' v c (Z.le_refl n) E) as Hc.
  rewrite entries_empty in Hc.
  pose proof (entries_bound n dp'). pose proof (length_triangle n). nia.
Qed.

End Counted.
End Cost.
