(* ===== verification/Exact.v ===== *)
(** * Exact arithmetic: the numbers [F] computes, over the rationals

    [Q_JsNum] instantiates the number interface with exact rationals,
    reduced after each operation so that evaluation stays fast.  With it
    [Recurrence.F_ref] is the mathematical value of the recurrence, and
    this file proves what solution.js computes about those values: they
    are probabilities, each row [F(n, 0..n)] sums to 1, the diagonal is
    [1/(n+1)!], a row does not increase in [k], and [n <= 0] gives 0. *)

From Stdlib Require Import ZArith QArith Qreduction Lia Lqa List Morphisms Factorial.
From stdpp Require Import base gmap.
From S2P Require Import Prelude Cache Recurrence.
Import ListNotations.

Module Exact.

#[global] Instance Q_JsNum : JsNum Q := {
  js_zero := 0;
  js_half := 1 # 2;
  js_one := 1;
  js_of_Z := inject_Z;
  js_add x y := Qred (x + y);
  js_mul x y := Qred (x * y);
  js_div x y := Qred (x / y)
}.

Local Open Scope Q_scope.

(** The exact value of [F(n, k)]. *)
Definition Fq (n k : Z) : Q := @Recurrence.F_ref Q Q_JsNum n k.

(** ** Finite sums over integer ranges *)

Fixpoint qsum (g : Z -> Q) (l : list Z) : Q :=
  match l with
  | [] => 0
  | i :: l' => g i + qsum g l'
  end.


Lemma qsum_ext_in (g h : Z -> Q) (l : list Z) :
  (forall i, In i l -> g i == h i) -> qsum g l == qsum h l.
Proof.
  induction l as [|a l IH]; intros E; simpl; [reflexivity|].
  rewrite (E a (or_introl eq_refl)), IH; [reflexivity|]. intros i Hi. apply E. now right.
Qed.

(** Sums respect pointwise equality of rationals, so [setoid_rewrite]
    can rewrite under the summation. *)
#[global] Instance qsum_proper : Proper (pointwise_relation Z Qeq ==> eq ==> Qeq) qsum.
Proof. intros g h Hgh l ? <-. apply qsum_ext_in. intros i _. apply Hgh. Qed.

Lemma qsum_add (g h : Z -> Q) (l : list Z) : qsum (fun i => g i + h i) l == qsum g l + qsum h l.
Proof. induction l as [|a l IH]; simpl; [ring|]. rewrite IH. ring. Qed.

Lemma qsum_map (g : Z -> Q) (f : Z -> Z) (l : list Z) : qsum g (map f l) = qsum (fun i => g (f i)) l.
Proof. induction l as [|a l IH]; simpl; [reflexivity|]. now rewrite IH. Qed.

Lemma qsum_nonneg (g : Z -> Q) (l : list Z) : (forall i, In i l -> 0 <= g i) -> 0 <= qsum g l.
Proof.
  induction l as [|a l IH]; intros Hg; simpl; [apply Qle_refl|].
  assert (0 <= g a) by (apply Hg; now left).
  assert (0 <= qsum g l) by (apply IH; intros i Hi; apply Hg; now right). lra.
Qed.

Lemma qsum_le_elem (g : Z -> Q) (l : list Z) (j : Z) :
  (forall i, In i l -> 0 <= g i) -> In j l -> g j <= qsum g l.
Proof.
  induction l as [|a l IH]; intros Hg Hj; [destruct Hj|]. simpl.
  assert (0 <= g a) by (apply Hg; now left).
  assert (0 <= qsum g l) by (apply qsum_nonneg; intros i Hi; apply Hg; now right).
  destruct Hj as [<-|Hj]; [lra|].
  assert (g j <= qsum g l) by (apply IH; [intros i Hi; apply Hg; now right|exact Hj]). lra.
Qed.

(** A loop [sum += g(i)] with the reducing addition is the sum of [g]. *)
Lemma fold_left_qsum (g : Z -> Q) (l : list Z) (s : Q) :
  fold_left (fun acc i => js_add acc (g i)) l s == s + qsum g l.
Proof.
  revert s. induction l as [|a l IH]; intros s; simpl; [ring|].
  rewrite IH. rewrite Qred_correct. ring.
Qed.

Lemma inject_Z_pos (z : Z) : (0 < z)%Z -> 0 < inject_Z z.
Proof. intros Hz. change 0 with (inject_Z 0). now rewrite <- Zlt_Qlt. Qed.

Lemma Qdiv_nonneg (x y : Q) : 0 <= x -> 0 < y -> 0 <= x / y.
Proof. intros Hx Hy. apply Qle_shift_div_l; [exact Hy|]. rewrite Qmult_0_l. exact Hx. Qed.

(** ** The recurrence over the rationals *)

Lemma Fq_out (n k : Z) : (k < 0 \/ n < k)%Z -> Fq n k = 0.
Proof. intros Hk. unfold Fq. now rewrite Recurrence.F_ref_out. Qed.

Lemma Fq_one (k : Z) : (0 <= k <= 1)%Z -> Fq 1 k = 1 # 2.
Proof. intros Hk. unfold Fq. now rewrite Recurrence.F_ref_one. Qed.

(** Split on the guard of line 2; an index out of range gives 0. *)
Ltac guard_cases n k :=
  destruct (Z_lt_le_dec k 0);
  [rewrite Fq_out by lia; lra|destruct (Z_lt_le_dec n k); [rewrite Fq_out by lia; lra|]].

(** The term of line 10 for index [i], with [F(n - 1, i - 1)]. *)
Definition summand (n i : Z) : Q := Fq (n - 1) (i - 1) / inject_Z (i + 1).

Lemma term_q (i : Z) (v : Q) : Recurrence.term i v == v / inject_Z (i + 1).
Proof. unfold Recurrence.term. simpl. rewrite !Qred_correct. unfold Qdiv. ring. Qed.

Lemma ref_sum_q (n k : Z) (s : Q) :
  Recurrence.ref_sum n k s == s + qsum (summand n) (zrange k n).
Proof.
  unfold Recurrence.ref_sum.
  rewrite (fold_left_qsum (fun j => Recurrence.term j (Fq (n - 1) (j - 1)))).
  setoid_rewrite term_q. reflexivity.
Qed.

(** The recursive case of lines 8-11, as a sum. *)
Lemma Fq_rec (n k : Z) : (0 <= k <= n)%Z -> n <> 1%Z -> Fq n k == qsum (summand n) (zrange k n).
Proof.
  intros Hk Hn. unfold Fq at 1. rewrite Recurrence.F_ref_rec by assumption.
  rewrite ref_sum_q. simpl. ring.
Qed.

Lemma summand_nonneg (n i : Z) : (0 <= i)%Z -> 0 <= Fq (n - 1) (i - 1) -> 0 <= summand n i.
Proof. intros Hi Hv. apply Qdiv_nonneg; [exact Hv|]. apply inject_Z_pos. lia. Qed.

(** Non-negativity, shared by the bounds below. *)
Lemma Fq_nonneg (n k : Z) : 0 <= Fq n k.
Proof.
  revert k. induction n as [n Hn|n Hn IH] using Z_step_ind; intros k.
  - rewrite Fq_out by lia. apply Qle_refl.
  - guard_cases n k.
    destruct (Z.eq_dec n 1%Z) as [->|Hn1].
    + rewrite Fq_one by lia. simpl. lra.
    + rewrite Fq_rec by lia. apply qsum_nonneg. intros i Hi. apply in_zrange in Hi.
      apply summand_nonneg; [lia|apply IH].
Qed.

(** C6.  Every value [F(n, k)] is non-negative. *)
Theorem F_nonneg (n k : Z) : 0 <= Fq n k.
Proof. exact (Fq_nonneg n k). Qed.


(** Rows [n <= 0] are zero. *)
(** For [n <= 0] the reference value is the rational [0] itself. *)
Lemma Fq_nonpos (n k : Z) : (n <= 0)%Z -> Fq n k = 0.
Proof.
  intros Hn. destruct (Z_lt_le_dec k 0); [|destruct (Z_lt_le_dec n k)]; try (apply Fq_out; lia).
  replace n with 0%Z by lia. replace k with 0%Z by lia. vm_compute. reflexivity.
Qed.

(** C8.  For [n <= 0] the top-level call [F(n, k)] of the program
    returns, within its fuel, and returns 0; so does the reference
    value.  [F(0, 0)] runs the loop once and calls [F(-1, -1)], which
    line 2 answers with 0 because [k < 0]: without that test the calls
    [F(-1, -1)], [F(-2, -2)], ... would never end. *)
Theorem F_nonpos_zero (n k : Z) :
  (n <= 0)%Z -> @Recurrence.js_F Q Q_JsNum n k = Some 0 /\ Fq n k == 0.
Proof.
  intros Hn. pose proof (Fq_nonpos n k Hn) as E. split; [|rewrite E; reflexivity].
  unfold Recurrence.js_F.
  destruct (Recurrence.F_simulation (S (Z.to_nat (n + 1))) n k ∅ (Cache.cache_ok_empty _)
              ltac:(lia)) as (dp & -> & _).
  exact (f_equal Some E).
Qed.

(** Swapping the two sums of [sum_k sum_(i >= k) t i]: index [i] is
    counted once for each [k] in [a..i]. *)
Lemma double_sum (t : Z -> Q) (n : Z) (c : nat) (a : Z) :
  Z.to_nat (n - a + 1) = c ->
  qsum (fun k => qsum t (zrange k n)) (zrange a n) ==
  qsum (fun i => inject_Z (i - a + 1) * t i) (zrange a n).
Proof.
  revert a. induction c as [|c IH]; intros a Hc.
  - rewrite zrange_nil by lia. reflexivity.
  - rewrite (zrange_cons a n) by lia. cbn [qsum].
    rewrite (IH (a + 1)%Z) by lia. rewrite (zrange_cons a n) by lia. cbn [qsum].
    rewrite (qsum_ext_in (fun i => inject_Z (i - a + 1) * t i)
               (fun i => inject_Z (i - (a + 1) + 1) * t i + t i)).
    2:{ intros i _. replace (i - a + 1)%Z with ((i - (a + 1) + 1) + 1)%Z by lia.
        rewrite inject_Z_plus. ring. }
    rewrite qsum_add. replace (a - a + 1)%Z with 1%Z by lia. ring.
Qed.

(** The row sum, shared with the upper bound. *)
Lemma Fq_row_sum (n : Z) : (1 <= n)%Z -> qsum (Fq n) (zrange 0 n) == 1.
Proof.
  induction n as [n Hn0|n Hn0 IH] using Z_step_ind; intros Hn; [lia|].
  destruct (Z.eq_dec n 1%Z) as [->|Hn1]; [vm_compute; reflexivity|].
  rewrite (qsum_ext_in _ (fun k => qsum (summand n) (zrange k n)))
    by (intros k Hk; apply in_zrange in Hk; apply Fq_rec; lia).
  rewrite (double_sum _ n _ 0 eq_refl).
  rewrite (qsum_ext_in _ (fun i => Fq (n - 1) (i - 1))).
  2:{ intros i Hi. apply in_zrange in Hi. unfold summand.
      replace (i - 0 + 1)%Z with (i + 1)%Z by lia.
      assert (0 < inject_Z (i + 1)) by (apply inject_Z_pos; lia). field. lra. }
  rewrite zrange_cons by lia. cbn [qsum]. rewrite (Fq_out (n - 1)) by lia.
  replace (zrange (0 + 1) n) with (zrange (0 + 1) (n - 1 + 1)) by (f_equal; lia).
  rewrite zrange_shift, qsum_map.
  rewrite (qsum_ext_in _ (Fq (n - 1))) by (intros i _; now replace (Z.succ i - 1)%Z with i by lia).
  rewrite IH by lia. simpl. ring.
Qed.

(** C4.  The values of a row are a probability distribution: for
    [n >= 1], [F(n, 0) + F(n, 1) + ... + F(n, n) = 1]. *)
Theorem F_row_sum (n : Z) : (1 <= n)%Z -> qsum (Fq n) (zrange 0 n) == 1.
Proof. exact (Fq_row_sum n). Qed.

(** C7.  Every value is at most 1: with C6, [F(n, k)] is a probability. *)
Theorem F_le_one (n k : Z) : Fq n k <= 1.
Proof.
  destruct (Z_lt_le_dec n 1) as [Hn|Hn].
  - rewrite Fq_nonpos by lia. lra.
  - guard_cases n k.
    rewrite <- (Fq_row_sum n) by exact Hn.
    apply qsum_le_elem; [intros; apply Fq_nonneg|auto with js].
Qed.

(** C17.  In exact arithmetic, [F(n, 0) = F(n, 1)] for [n >= 1]: the loop's first term for
    [k = 0] is [1/1 * F(n - 1, -1)], which the guard makes 0. *)
Theorem F_first_two (n : Z) : (1 <= n)%Z -> Fq n 0 == Fq n 1.
Proof.
  intros Hn. destruct (Z.eq_dec n 1%Z) as [->|Hn1]; [reflexivity|].
  rewrite !Fq_rec by lia. rewrite (zrange_cons 0 n) by lia. cbn [qsum].
  unfold summand at 1. rewrite (Fq_out (n - 1)) by lia.
  change (0 + 1)%Z with 1%Z. simpl. apply Qplus_0_l.
Qed.

(** The suffix form of the loop, shared by the monotonicity and diagonal proofs. *)
Lemma Fq_suffix (n k : Z) :
  (2 <= n)%Z -> (0 <= k <= n)%Z ->
  Fq n k == Fq (n - 1) (k - 1) / inject_Z (k + 1) + Fq n (k + 1).
Proof.
  intros Hn Hk. rewrite (Fq_rec n k) by lia. rewrite zrange_cons by lia. cbn [qsum].
  unfold summand at 1. destruct (Z.eq_dec k n) as [->|Hkn].
  - rewrite zrange_nil by lia. rewrite (Fq_out n (n + 1)) by lia. simpl. ring.
  - rewrite (Fq_rec n (k + 1)) by lia. reflexivity.
Qed.

(** C15.  The loop of lines 8-11 read as a suffix sum, in exact
    arithmetic: for [n >= 2] and [0 <= k <= n],
    [F(n, k) = F(n - 1, k - 1)/(k + 1) + F(n, k + 1)]. *)
Theorem F_suffix (n k : Z) :
  (2 <= n)%Z -> (0 <= k <= n)%Z ->
  Fq n k == Fq (n - 1) (k - 1) / inject_Z (k + 1) + Fq n (k + 1).
Proof. exact (Fq_suffix n k). Qed.

(** C16.  In exact arithmetic a row does not increase: [F(n, k + 1) <= F(n, k)] for [k >= 0]. *)
Theorem F_antitone (n k : Z) : (0 <= k)%Z -> Fq n (k + 1) <= Fq n k.
Proof.
  intros Hk. destruct (Z_lt_le_dec n (k + 1)).
  - rewrite (Fq_out n (k + 1)) by lia. apply Fq_nonneg.
  - destruct (Z.eq_dec n 1%Z) as [->|Hn1].
    + rewrite !Fq_one by lia. apply Qle_refl.
    + rewrite (Fq_suffix n k) by lia.
      assert (0 <= Fq (n - 1) (k - 1) / inject_Z (k + 1))
        by (apply Qdiv_nonneg; [apply Fq_nonneg|apply inject_Z_pos; lia]).
      lra.
Qed.

(** C18.  The diagonal, in exact arithmetic: [F(n, n) = 1/(n + 1)!]
    for [n >= 1].  In doubles it holds only up to rounding. *)
Theorem F_diagonal (n : Z) :
  (1 <= n)%Z -> Fq n n == 1 / inject_Z (Z.of_nat (fact (Z.to_nat n + 1))).
Proof.
  induction n as [n Hn|n Hn IH] using Z_step_ind; intros H1; [lia|].
  destruct (Z.eq_dec n 1%Z) as [->|Hn1]; [vm_compute; reflexivity|].
  rewrite Fq_suffix by lia. rewrite (Fq_out n (n + 1)) by lia.
  rewrite IH by lia.
  replace (Z.to_nat n + 1)%nat with (S (Z.to_nat (n - 1) + 1)) by lia. cbn [fact].
  rewrite Nat2Z.inj_mul, inject_Z_mult.
  replace (Z.of_nat (S (Z.to_nat (n - 1) + 1))) with (n + 1)%Z by lia.
  assert (0 < inject_Z (n + 1)) by (apply inject_Z_pos; lia).
  assert (0 < inject_Z (Z.of_nat (fact (Z.to_nat (n - 1) + 1))))
    by (apply inject_Z_pos; pose proof (lt_O_fact (Z.to_nat (n - 1) + 1)); lia).
  simpl. field. split; lra.
Qed.

(** ** The theorems at concrete inputs *)

Lemma F_nonpos_zero_witness :
  (0 <= 0)%Z /\ @Recurrence.js_F Q Q_JsNum 0 0 = Some 0 /\ Fq 0 0 == 0.
Proof. split; [lia|]. apply F_nonpos_zero. lia. Defined.

Lemma F_row_sum_witness : (1 <= 3)%Z /\ qsum (Fq 3) (zrange 0 3) == 1.
Proof. split; [lia|]. apply F_row_sum. lia. Defined.

Lemma F_first_two_witness : (1 <= 3)%Z /\ Fq 3 0 == Fq 3 1.
Proof. split; [lia|]. apply F_first_two. lia. Defined.

Lemma F_suffix_witness :
  (2 <= 3)%Z /\ (0 <= 1 <= 3)%Z /\ Fq 3 1 == Fq 2 0 / inject_Z 2 + Fq 3 2.
Proof. split; [lia|]. split; [lia|]. apply (F_suffix 3 1); lia. Defined.

Lemma F_antitone_witness : (0 <= 0)%Z /\ Fq 3 1 <= Fq 3 0.
Proof. split; [lia|]. apply (F_antitone 3 0). lia. Defined.

Lemma F_diagonal_witness : (1 <= 3)%Z /\ Fq 3 3 == 1 / inject_Z 24.
Proof. split; [lia|]. apply (F_diagonal 3). lia. Defined.

End Exact.
