(* ===== verification/Double.v ===== *)
(** * The program as a JavaScript engine runs it: IEEE doubles

    [float_JsNum] instantiates the number interface with Rocq's primitive
    binary64 floats, whose [+], [*] and [/] round to nearest-even as
    JavaScript numbers do.  With it [Recurrence.js_F] is the function a
    JavaScript engine computes, and [main] is the pair of numbers that
    lines 17-18 pass to [console.log].  [Q_of_float] reads a finite
    double as the rational it denotes, so the rounding error can be
    compared with the exact values of Exact.v. *)

From Stdlib Require Import ZArith QArith Qabs Floats Lia List.
From stdpp Require Import base gmap relations.
From S2P Require Import Prelude Cache Recurrence Errors Machine Cost Exact.
Import ListNotations.

#[local] Set Warnings "-inexact-float".

Module Double.

(** [i + 1] is an integer below [2^53] on every call the program can
    reach, so converting it from [Z] is exact, as the JavaScript addition
    is. *)
#[global] Instance float_JsNum : JsNum float := {
  js_zero := 0%float;
  js_half := 0.5%float;
  js_one := 1%float;
  js_of_Z z := PrimFloat.of_uint63 (Uint63.of_Z z);
  js_add := PrimFloat.add;
  js_mul := PrimFloat.mul;
  js_div := PrimFloat.div
}.

(** A top-level call [F(n, k)] as the engine evaluates it, in doubles. *)
Definition F_double (n k : Z) : option float := @Recurrence.js_F float float_JsNum n k.

(** Lines 16-18: [console.log(F(21, 3)); console.log(F(13, 9));].  Each
    call has its own fresh table.  The numbers are modelled, not the text
    [console.log] prints. *)
Definition main : list (option float) := [F_double 21 3; F_double 13 9].

(** The rational a finite double denotes: [(-1)^s * m * 2^e]. *)
Definition Q_of_finite (s : bool) (m : positive) (e : Z) : Q :=
  let q := match e with
           | Zpos p => inject_Z (Zpos m * Zpos (2 ^ p))
           | Z0 => inject_Z (Zpos m)
           | Zneg p => Zpos m # (2 ^ p)
           end in
  if s then - q else q.

Definition Q_of_float (f : float) : option Q :=
  match Prim2SF f with
  | S754_zero _ => Some 0%Q
  | S754_finite s m e => Some (Q_of_finite s m e)
  | _ => None
  end.

(** The values of the calls [F(n, k)] of [ps], made in turn on a shared
    table, in one table: at [Q] the exact values, at [float] the doubles.
    The fuel 23 is enough for [n <= 21]. *)
Definition fill {R : Type} `{JsNum R} (ps : list (Z * Z)) (dp : cache R) : cache R :=
  fold_left (fun dp p => match @Recurrence.F R _ 23 (fst p) (snd p) dp with
                         | Some (_, dp') => dp'
                         | None => dp
                         end) ps dp.

(** The exact value of [F(n, k)], read from the table [tbl].  Row 1 is
    never stored (line 3 answers it), and [Fq] computes it directly. *)
Definition exact_of (tbl : cache Q) (n k : Z) : Q :=
  match Cache.lookup2 tbl n k with
  | Some q => q
  | None => Exact.Fq n k
  end.

(** The double [F(n, k)], read from the table [tbl] of doubles.  Row 1
    is never stored, and [F_double] computes it directly. *)
Definition double_of (tbl : cache float) (n k : Z) : option float :=
  match Cache.lookup2 tbl n k with
  | Some x => Some x
  | None => F_double n k
  end.

(** The double [f] is finite and within relative error [tol] of [q]. *)
Definition within (tol : Q) (f : option float) (q : Q) : bool :=
  match f with
  | Some x =>
      match Q_of_float x with
      | Some y => Qle_bool (Qabs (y - q)) (tol * q)
      | None => false
      end
  | None => false
  end.

(** Every call [F(n, k)] with [0 <= k <= n <= N] is within [tol]. *)
Definition all_close (tol : Q) (N : Z) : bool :=
  let tbl : cache Q := fill (triangle N) ∅ in
  let dtbl : cache float := fill (triangle N) ∅ in
  forallb (fun p => within tol (double_of dtbl (fst p) (snd p)) (exact_of tbl (fst p) (snd p)))
    (triangle N).

Section Fill.
Context {R : Type} `{JsNum R}.

Lemma fill_ok (ps : list (Z * Z)) (dp : cache R) :
  Forall (fun p => (fst p <= 21)%Z) ps ->
  Cache.cache_ok Recurrence.F_ref dp -> Cache.cache_ok Recurrence.F_ref (fill ps dp).
Proof.
  revert dp. induction ps as [|[n k] ps IH]; intros dp Hps Hok; [exact Hok|].
  inversion Hps as [|? ? Hn Hps']; subst. cbn [fst] in Hn. unfold fill. cbn [fold_left fst snd].
  destruct (@Recurrence.F_simulation R _ 23 n k dp Hok ltac:(lia)) as (dp' & -> & Hok' & _).
  exact (IH dp' Hps' Hok').
Qed.

(** Every entry of the table filled by the calls up to [N <= 21] is
    the reference value. *)
Lemma fill_triangle_ok (N : Z) :
  (N <= 21)%Z -> Cache.cache_ok Recurrence.F_ref (fill (triangle N) (∅ : cache R)).
Proof.
  intros HN. apply fill_ok; [|apply Cache.cache_ok_empty].
  apply List.Forall_forall. intros [m j] Hin. apply in_triangle in Hin. cbn [fst]. lia.
Qed.

End Fill.

(** A fresh call returns the reference value, in doubles. *)
Lemma F_double_ref (n k : Z) : F_double n k = Some (@Recurrence.F_ref float _ n k).
Proof.
  unfold F_double, Recurrence.js_F.
  destruct (Recurrence.F_simulation (S (Z.to_nat (n + 1))) n k ∅ (Cache.cache_ok_empty _)
              ltac:(lia)) as (dp' & -> & _).
  reflexivity.
Qed.

(** Reading the shared table of doubles gives what a fresh call gives. *)
Lemma double_of_fill (n k N : Z) :
  (N <= 21)%Z -> double_of (fill (triangle N) ∅) n k = F_double n k.
Proof.
  intros HN. unfold double_of. rewrite F_double_ref.
  destruct (Cache.lookup2 _ n k) as [x|] eqn:E; [|reflexivity].
  f_equal. exact (fill_triangle_ok N HN n k x E).
Qed.

Lemma exact_of_fill (n k : Z) (N : Z) :
  (N <= 21)%Z -> exact_of (fill (triangle N) ∅) n k = Exact.Fq n k.
Proof.
  intros HN. unfold exact_of.
  destruct (Cache.lookup2 _ n k) as [q|] eqn:E; [|reflexivity].
  exact (fill_triangle_ok N HN n k q E).
Qed.

Lemma all_close_spec (tol : Q) (N n k : Z) :
  all_close tol N = true -> (N <= 21)%Z -> (0 <= k <= n /\ n <= N)%Z ->
  within tol (F_double n k) (Exact.Fq n k) = true.
Proof.
  unfold all_close. cbv zeta. rewrite forallb_forall. intros Hall HN Hk.
  specialize (Hall (n, k) (proj2 (in_triangle n k N) Hk)). cbn [fst snd] in Hall.
  rewrite exact_of_fill, double_of_fill in Hall by exact HN. exact Hall.
Qed.

Lemma all_close_21 : all_close (1 # 1000000000000000) 21 = true.
Proof. vm_compute. reflexivity. Qed.

(** C13.  Rounding: for every call [F(n, k)] with [0 <= k <= n <= 21]
    (the printed inputs and the worked example among them), the double
    the program computes differs from the exact value by a relative error
    of at most [10^-15].  The specification asks for [1e-9] and [1e-12]
    absolute. *)
Theorem rounding_error_small (n k : Z) :
  (0 <= k <= n /\ n <= 21)%Z ->
  exists x q, F_double n k = Some x /\ Q_of_float x = Some q /\
    (Qabs (q - Exact.Fq n k) <= (1 # 1000000000000000) * Exact.Fq n k)%Q.
Proof.
  intros Hnk. pose proof (all_close_spec _ 21 n k all_close_21 ltac:(lia) Hnk) as Hall.
  unfold within in Hall.
  destruct (F_double n k) as [x|]; [|discriminate].
  destruct (Q_of_float x) as [q|] eqn:Eq; [|discriminate].
  exists x, q. split; [reflexivity|]. split; [exact Eq|]. now apply Qle_bool_iff.
Qed.

(** ** Every result is a number in [0, 1]

    JavaScript's one number type also holds [NaN] and the infinities,
    which a division by zero or an overflow would bring into the sum.
    [unit_double x] says [x] is finite and lies in [0, 1]. *)
Definition unit_double (x : float) : bool :=
  PrimFloat.is_finite x && (0 <=? x)%float && (x <=? 1)%float.

(** Every call [F(n, k)] with [0 <= k <= n <= N] returns a [unit_double],
    read from one shared table of doubles. *)
Definition all_unit (N : Z) : bool :=
  let dtbl : cache float := fill (triangle N) ∅ in
  forallb (fun p =>
    match double_of dtbl (fst p) (snd p) with Some x => unit_double x | None => false end)
    (triangle N).

Lemma all_unit_spec (N n k : Z) :
  all_unit N = true -> (N <= 21)%Z -> (0 <= k <= n /\ n <= N)%Z ->
  match F_double n k with Some x => unit_double x | None => false end = true.
Proof.
  unfold all_unit. cbv zeta. rewrite forallb_forall. intros Hall HN Hk.
  specialize (Hall (n, k) (proj2 (in_triangle n k N) Hk)).
  cbn [fst snd] in Hall. rewrite double_of_fill in Hall by exact HN. exact Hall.
Qed.

(** Line 2 in doubles: outside [0 <= k <= n] the result is [0]. *)
Lemma F_double_out (n k : Z) : (k < 0 \/ n < k)%Z -> F_double n k = Some 0%float.
Proof.
  intros Hk. unfold F_double, Recurrence.js_F. cbn [Recurrence.F].
  replace ((k <? 0)%Z || (n <? k)%Z) with true by (zcase; simpl; reflexivity || lia).
  reflexivity.
Qed.

(** C22.  Type of the results: for every [n <= 21], the largest [n] the
    program calls [F] with, and every integer [k], [F(n, k)] is a finite
    double in [0, 1].  It is never [NaN] or an infinity.  The check runs
    every call with [0 <= k <= n <= 21]; line 2 answers all the others
    with [0]. *)
Theorem F_double_unit (n k : Z) :
  (n <= 21)%Z ->
  exists x, F_double n k = Some x /\
    PrimFloat.is_finite x = true /\ (0 <=? x)%float = true /\ (x <=? 1)%float = true.
Proof.
  intros Hn. destruct (Z_lt_le_dec k 0%Z) as [Hk|Hk]; [|destruct (Z_lt_le_dec n k) as [Hk'|Hk']].
  1,2: exists 0%float; rewrite F_double_out by lia; repeat split; reflexivity.
  assert (Hall : all_unit 21 = true) by (vm_compute; reflexivity).
  pose proof (all_unit_spec 21 n k Hall ltac:(lia) ltac:(lia)) as Hx.
  destruct (F_double n k) as [x|]; [|discriminate]. exists x.
  unfold unit_double in Hx. apply andb_prop in Hx as [Hx Hx1]. apply andb_prop in Hx as [Hx Hx0].
  auto.
Qed.

(** ** The theorems of Recurrence.v at concrete inputs, in doubles *)

(** Run the model on the closed input [t]: name the components of its
    result and refute the [None] case by evaluation. *)
Ltac run_closed t E :=
  let r := fresh "r" in
  destruct t as [r|] eqn:E;
  [repeat (destruct r as [r ?]) | vm_compute in E; discriminate E].

Lemma F_refines_witness :
  Cache.cache_ok (@Recurrence.F_ref float _) ∅ /\ (Z.to_nat (2 + 1) < 4)%nat /\
  exists dp', Recurrence.F 4 2 0 ∅ = Some (Recurrence.F_ref 2 0, dp') /\
              Cache.cache_ok Recurrence.F_ref dp' /\ Cache.cache_le ∅ dp'.
Proof.
  split; [apply Cache.cache_ok_empty|]. split; [lia|].
  apply Recurrence.F_refines; [apply Cache.cache_ok_empty|lia].
Defined.

(** With fuel 1 the second call cannot run the loop: it is answered from
    the table. *)
Lemma F_recall_witness :
  (0 < 1)%nat /\
  match @Recurrence.F float _ 4 2 0 ∅ with
  | Some (v, dp') => Recurrence.F 1 2 0 dp' = Some (v, dp')
  | None => False
  end.
Proof.
  split; [lia|].
  run_closed (@Recurrence.F float _ 4 2 0 ∅) E.
  exact (Recurrence.F_recall 4 1 2 0 ∅ _ _ E ltac:(lia)).
Defined.

Lemma F_frame_witness :
  match @Recurrence.F float _ 4 2 0 ∅ with
  | Some (v, dp') => Recurrence.rows_above 2 ∅ dp'
  | None => False
  end.
Proof.
  run_closed (@Recurrence.F float _ 4 2 0 ∅) E.
  exact (Recurrence.F_frame 4 2 0 ∅ _ _ E).
Defined.

Lemma F_write_fresh_witness :
  Cache.lookup2 (Cache.ensure_row 2 (∅ : cache float)) 2 0 = None /\
  match Recurrence.for_loop (Recurrence.F 3) 2 4 0 js_zero (Cache.ensure_row 2 (∅ : cache float)) with
  | Some (s, dp1) => Cache.lookup2 dp1 2 0 = None
  | None => False
  end.
Proof.
  assert (Hmiss : Cache.lookup2 (Cache.ensure_row 2 (∅ : cache float)) 2 0 = None) by reflexivity.
  split; [exact Hmiss|].
  run_closed (Recurrence.for_loop (Recurrence.F 3) 2 4 0 js_zero (Cache.ensure_row 2 (∅ : cache float))) E.
  exact (Recurrence.F_write_fresh 3 4 2 0 ∅ _ _ Hmiss E).
Defined.

Lemma F_table_bounded_witness :
  (2 <= 2)%Z /\ Recurrence.table_bounded 2 (∅ : cache float) /\
  match @Recurrence.F float _ 4 2 0 ∅ with
  | Some (v, dp') => Recurrence.table_bounded 2 dp'
  | None => False
  end.
Proof.
  split; [lia|]. split; [apply Recurrence.table_bounded_empty|].
  run_closed (@Recurrence.F float _ 4 2 0 ∅) E.
  exact (Recurrence.F_table_bounded 4 2 2 0 ∅ _ _ ltac:(lia) (Recurrence.table_bounded_empty 2) E).
Defined.

Lemma F_c_cost_witness :
  (2 <= 2)%Z /\
  match @Cost.F_c float _ 4 2 0 ∅ with
  | Some (v, dp', c) =>
      (c + Z.to_nat (2 + 1) * Cost.entries 2 (∅ : cache float) <= 1 + Z.to_nat (2 + 1) * Cost.entries 2 dp')%nat
  | None => False
  end.
Proof.
  split; [lia|].
  run_closed (@Cost.F_c float _ 4 2 0 ∅) E.
  exact (Cost.F_c_cost 4 2 2 0 ∅ _ _ _ ltac:(lia) E).
Defined.

(** ** The theorems of Errors.v at concrete inputs, in doubles *)

Lemma F_x_never_throws_witness :
  @Errors.F_x float _ 4 2 0 ∅ <> Throw TypeError.
Proof. exact (Errors.F_x_never_throws 4 2 0 ∅ TypeError). Defined.

Lemma F_double_unit_witness :
  (21 <= 21)%Z /\
  exists x, F_double 21 3 = Some x /\
    PrimFloat.is_finite x = true /\ (0 <=? x)%float = true /\ (x <=? 1)%float = true.
Proof. split; [lia|]. apply F_double_unit. lia. Defined.

Lemma rounding_error_small_witness :
  (0 <= 3 <= 21 /\ 21 <= 21)%Z /\
  exists x q, F_double 21 3 = Some x /\ Q_of_float x = Some q /\
    (Qabs (q - Exact.Fq 21 3) <= (1 # 1000000000000000) * Exact.Fq 21 3)%Q.
Proof. split; [lia|]. apply rounding_error_small. lia. Defined.

Lemma call_returns_witness :
  rtc Machine.mstep (@Machine.init float 3 1) (Machine.init 3 1) /\
  exists dp, rtc Machine.mstep (Machine.init 3 1)
               (Machine.State (Machine.Return (@Recurrence.F_ref float _ 3 1)) [] dp) /\
             nf Machine.mstep (Machine.State (Machine.Return (@Recurrence.F_ref float _ 3 1)) [] dp).
Proof.
  split; [reflexivity|]. apply (Machine.call_returns 3 1). reflexivity.
Defined.

Lemma stack_shape_witness :
  rtc Machine.mstep (@Machine.init float 3 1) (Machine.run 5 (Machine.init 3 1)) /\
  Machine.stack_inv 3 (@Machine.run float _ 5 (Machine.init 3 1)).
Proof.
  split; [apply Machine.run_rtc|]. apply (Machine.stack_shape 3 1). apply Machine.run_rtc.
Defined.

Lemma stack_depth_witness :
  (1 <= 3)%Z /\ rtc Machine.mstep (@Machine.init float 3 0) (Machine.run 7 (Machine.init 3 0)) /\
  (Machine.depth (@Machine.run float _ 7 (Machine.init 3 0)) <= 3)%nat.
Proof.
  split; [lia|]. split; [apply Machine.run_rtc|].
  apply (Machine.stack_depth 3 0); [lia|apply Machine.run_rtc].
Defined.

End Double.
