(* ===== verification/Print.v ===== *)
(** * The text [console.log] prints: ECMAScript [Number::toString]

    Lines 17-18 pass a number to [console.log], which prints
    [Number::toString(x)] (ECMAScript 2024, section 6.1.6.1.20, radix 10).
    For a finite positive [x] that operation:
    - picks integers [n], [k], [s] with [k >= 1], [10^(k-1) <= s < 10^k],
      [s * 10^(n-k)] rounding to [x], and [k] as small as possible
      (step 5);
    - among the [s] that remain, picks the one whose value is closest
      to [x], the even one on a tie (step 6);
    - writes the [k] digits of [s] in one of four layouts chosen by [n]
      and [k] (steps 7-11).

    A positive finite double is [m * 2^e], as [Prim2SF] gives it.  The
    reals that round to it under round-to-nearest-even form the interval
    [[lo_of m e, hi_of m e]].  The interval includes its ends when [m] is
    even.  [rounds_to] decides membership, and [es_ok] is the condition
    of step 5 without the minimality of [k].

    [shortest] searches [k = 1 .. 17], which always succeeds: the
    rounding interval of a double is wider than the spacing of the
    17-digit decimals around it.  For each [k] it tries the
    exponents [n] that can work ([ncands]) and, for each [n], the
    integers [s] in the scaled interval ([srange]).  [fmt] writes the
    digits, [js_to_string] handles the sign, zero, [NaN] and the
    infinities, and [main_text] is what the program prints.

    The exponents [n] come from [dexp j], the decimal exponent of [2^j],
    which tries the estimate [j * log10 2] and the two values above it.
    That this is right for every [j] in [[-1076, 1025]] (all a double
    needs) is checked once by [scan_up] and [scan_down].  They walk [j]
    away from [0] and keep [2^|j|] and a power of ten beside it, so one
    step costs a doubling, a product by ten and two comparisons. *)

#[local] Set Warnings "-inexact-float".
From Stdlib Require Import ZArith QArith Qpower Qround Qabs Lia Lqa List String Ascii Floats.
From S2P Require Import Prelude Cache Recurrence Exact Double.
Import ListNotations.

Module Print.
Local Open Scope Z_scope.

(** ** Decimal and binary scales in [Q] *)

Definition pow2 (a : Z) : Q := Qpower (inject_Z 2) a.
Definition pow10 (a : Z) : Q := Qpower (inject_Z 10) a.

(** The value [m * 2^e] of a positive finite double. *)
Definition fval (m : positive) (e : Z) : Q := inject_Z (Zpos m) * pow2 e.

(** ** Round to nearest, ties to even

    The neighbours of [m * 2^e] are [(m + 1) * 2^e] above and
    [(m - 1) * 2^e] below.  The exception is a power of two [2^52 * 2^e]
    above the subnormals: the double below it is [(2^53 - 1) * 2^(e-1)],
    so the gap below is half as wide.  The midpoints bound the reals
    that round to [m * 2^e]; at a midpoint the tie goes to the even
    significand. *)
Definition lo_of (m : positive) (e : Z) : Q :=
  if (Zpos m =? 2 ^ 52) && (-1074 <? e)
  then (inject_Z (Zpos m) - (1 # 4)) * pow2 e
  else (inject_Z (Zpos m) - (1 # 2)) * pow2 e.

Definition hi_of (m : positive) (e : Z) : Q := (inject_Z (Zpos m) + (1 # 2)) * pow2 e.

Definition Qltb (a b : Q) : bool := negb (Qle_bool b a).

Definition rounds_to (d : Q) (m : positive) (e : Z) : bool :=
  if Z.even (Zpos m) then Qle_bool (lo_of m e) d && Qle_bool d (hi_of m e)
  else Qltb (lo_of m e) d && Qltb d (hi_of m e).

(** ** Step 5 of [Number::toString] *)

Definition dec_val (s k n : Z) : Q := inject_Z s * pow10 (n - k).

Definition es_ok (m : positive) (e : Z) (s k n : Z) : bool :=
  (1 <=? k) && (10 ^ (k - 1) <=? s) && (s <? 10 ^ k) && rounds_to (dec_val s k n) m e.

(** ** The search *)

(** [dexp_ok j n]: [10^(n-1) <= 2^j < 10^n], decided on integers. *)
Definition dexp_ok (j n : Z) : bool :=
  if 0 <=? j then
    let p := 10 ^ (n - 1) in let b := Z.shiftl 1 j in
    (1 <=? n) && (p <=? b) && (b <? 10 * p)
  else
    let q := 10 ^ (- n) in let b := Z.shiftl 1 (- j) in
    (n <=? 0) && (b <=? 10 * q) && (q <? b).

(** The estimate [j * log10 2] of the decimal exponent of [2^j], with
    [log10 2 ~ 0.30103]. *)
Definition dexp_est (j : Z) : Z := j * 30103 / 100000.

(** The decimal exponent of [2^j]: one of [est], [est + 1], [est + 2]. *)
Definition dexp (j : Z) : Z :=
  let est := dexp_est j in
  if dexp_ok j (est + 1) then est + 1
  else if dexp_ok j est then est
  else est + 2.

(** Checks that the estimate is within two below the exponent, for
    [fuel] consecutive [j] upwards from [0].  The state is [b = 2^j] and
    [p = 10^(n-1)] with [p <= b < 10 p]: doubling [b] moves [n] up by at
    most one, so every step costs one doubling, one product by ten and
    two comparisons. *)
Fixpoint scan_up (fuel : nat) (j b p n : Z) : bool :=
  match fuel with
  | O => true
  | S f =>
      (dexp_est j <=? n) && (n <=? dexp_est j + 2) &&
      (if 2 * b <? 10 * p then scan_up f (j + 1) (2 * b) p n
       else scan_up f (j + 1) (2 * b) (10 * p) (n + 1))
  end.

(** The same downwards from [-1], with [b = 2^(-j)] and [q = 10^(-n)],
    [q < b <= 10 q]. *)
Fixpoint scan_down (fuel : nat) (j b q n : Z) : bool :=
  match fuel with
  | O => true
  | S f =>
      (dexp_est j <=? n) && (n <=? dexp_est j + 2) &&
      (if 2 * b <=? 10 * q then scan_down f (j - 1) (2 * b) q n
       else scan_down f (j - 1) (2 * b) (10 * q) (n - 1))
  end.

(** [2^(L-1) <= m * 2^e < 2^L]. *)
Definition bin_exp (m : positive) (e : Z) : Z := e + Z.log2 (Zpos m) + 1.

(** The exponents [n] a decimal rounding to [m * 2^e] can have. *)
Definition ncands (m : positive) (e : Z) : list Z :=
  zrange (dexp (bin_exp m e - 3)) (dexp (bin_exp m e + 1)).

(** The [k]-digit [s] whose value [s * 10^(n-k)] lies in the rounding
    interval. *)
Definition srange (m : positive) (e : Z) (k n : Z) : list Z :=
  zrange (Z.max (10 ^ (k - 1)) (Qceiling (lo_of m e * pow10 (k - n))))
         (Z.min (10 ^ k - 1) (Qfloor (hi_of m e * pow10 (k - n)))).

(** Every [(s, n)] that satisfies step 5 for this [k]. *)
Definition cands (m : positive) (e : Z) (k : Z) : list (Z * Z) :=
  flat_map (fun n => map (fun s => (s, n)) (filter (fun s => es_ok m e s k n) (srange m e k n)))
    (ncands m e).

Definition dist (m : positive) (e : Z) (k : Z) (c : Z * Z) : Q :=
  Qabs (dec_val (fst c) k (snd c) - fval m e).

(** Step 6: [c] replaces the best so far when it is closer, or as close
    and even. *)
Definition better (m : positive) (e : Z) (k : Z) (c b : Z * Z) : bool :=
  Qltb (dist m e k c) (dist m e k b) ||
  (Qeq_bool (dist m e k c) (dist m e k b) && Z.even (fst c)).

Definition pick (m : positive) (e : Z) (k : Z) (c : Z * Z) (cs : list (Z * Z)) : Z * Z :=
  fold_left (fun b c => if better m e k c b then c else b) cs c.

(** The least [k >= k0] with a candidate, and the candidate step 6
    picks for it. *)
Fixpoint search (m : positive) (e : Z) (fuel : nat) (k : Z) : option (Z * Z * Z) :=
  match fuel with
  | O => None
  | S f =>
      match cands m e k with
      | [] => search m e f (k + 1)
      | c :: cs => let '(s, n) := pick m e k c cs in Some (s, k, n)
      end
  end.

(** [k = 1 .. 17]: 17 significant digits always suffice for a double. *)
Definition shortest (m : positive) (e : Z) : option (Z * Z * Z) := search m e 17 1.

(** ** Steps 7-11: the layout *)

Definition digit (d : Z) : ascii := ascii_of_nat (48 + Z.to_nat d).

(** The decimal digits of [s >= 0], least significant first. *)
Fixpoint digits_rev (fuel : nat) (s : Z) : list ascii :=
  match fuel with
  | O => []
  | S f => digit (s mod 10) :: (if s <? 10 then [] else digits_rev f (s / 10))
  end.

(** Most significant first; 20 digits cover every [s < 10^20]. *)
Definition digits (s : Z) : list ascii := rev (digits_rev 20 s).

Definition zeros (c : Z) : list ascii := repeat "0"%char (Z.to_nat c).

(** The exponent part [e+d] or [e-d]. *)
Definition exp_part (x : Z) : list ascii :=
  "e"%char :: (if 0 <? x then "+"%char else "-"%char) :: digits (Z.abs x).

Definition fmt_digits (ds : list ascii) (k n : Z) : list ascii :=
  if (k <=? n) && (n <=? 21) then ds ++ zeros (n - k)
  else if (0 <? n) && (n <=? 21) then
    firstn (Z.to_nat n) ds ++ "."%char :: skipn (Z.to_nat n) ds
  else if (-6 <? n) && (n <=? 0) then
    "0"%char :: "."%char :: zeros (- n) ++ ds
  else if k =? 1 then ds ++ exp_part (n - 1)
  else firstn 1 ds ++ "."%char :: skipn 1 ds ++ exp_part (n - 1).

Definition fmt (s k n : Z) : string := string_of_list_ascii (fmt_digits (digits s) k n).

(** [Number::toString(x)] for a double [x]: steps 1-4 handle [NaN],
    the zeros, the sign and the infinities. *)
Definition js_to_string (x : float) : string :=
  match Prim2SF x with
  | S754_nan => "NaN"
  | S754_zero _ => "0"
  | S754_infinity false => "Infinity"
  | S754_infinity true => "-Infinity"
  | S754_finite sgn m e =>
      let t := match shortest m e with
               | Some (s, k, n) => fmt s k n
               | None => EmptyString
               end in
      if sgn then String "-"%char t else t
  end.

(** ** Reading a decimal back

    The mathematical value of a decimal literal
    [digits [. digits] [e (+|-) digits]], as ECMAScript's
    [StringToNumber] reads it before rounding. *)
Definition dval (c : ascii) : option Z :=
  let d := (Z.of_nat (nat_of_ascii c) - 48)%Z in
  if (0 <=? d) && (d <=? 9) then Some d else None.

Fixpoint dvalue (l : list ascii) (acc : Z) : option Z :=
  match l with
  | [] => Some acc
  | c :: l' => match dval c with Some d => dvalue l' (10 * acc + d) | None => None end
  end.

(** The part before the first [c] and, if [c] occurs, the part after it. *)
Fixpoint split_at (c : ascii) (l : list ascii) : list ascii * option (list ascii) :=
  match l with
  | [] => ([], None)
  | x :: l' => if Ascii.eqb x c then ([], Some l') else let (a, b) := split_at c l' in (x :: a, b)
  end.

Definition parse_mantissa (l : list ascii) : option Q :=
  match split_at "."%char l with
  | ([], _) => None
  | (ip, None) => option_map inject_Z (dvalue ip 0)
  | (_, Some []) => None
  | (ip, Some fp) =>
      option_map (fun v => (inject_Z v * pow10 (- Z.of_nat (List.length fp)))%Q) (dvalue (ip ++ fp) 0)
  end.

Definition parse_exp (l : list ascii) : option Z :=
  match l with
  | "+"%char :: ((_ :: _) as ds) => dvalue ds 0
  | "-"%char :: ((_ :: _) as ds) => option_map Z.opp (dvalue ds 0)
  | _ => None
  end.

Definition parse_number (t : string) : option Q :=
  match split_at "e"%char (list_ascii_of_string t) with
  | (mant, None) => parse_mantissa mant
  | (mant, Some ex) =>
      match parse_mantissa mant, parse_exp ex with
      | Some v, Some x => Some (v * pow10 x)%Q
      | _, _ => None
      end
  end.

(** Lines 17-18: the text of the two [console.log] calls. *)
Definition main_text : list (option string) := map (option_map js_to_string) Double.main.

(** ** Positive finite doubles *)

(** [m * 2^e] is a positive finite binary64 number: a 53-bit significand,
    normalised unless the exponent is the least one. *)
Definition valid_pos (m : positive) (e : Z) : Prop :=
  -1074 <= e <= 971 /\ Zpos m < 2 ^ 53 /\ (e = -1074 \/ 2 ^ 52 <= Zpos m).

(** ** The doubles the program prints

    [x] is [+0] or a positive normal double: its significand has all 53
    bits. *)
Definition normal_or_zero (x : float) : bool :=
  match Prim2SF x with
  | S754_zero false => true
  | S754_finite false m e =>
      (2 ^ 52 <=? Zpos m) && (Zpos m <? 2 ^ 53) && (-1074 <=? e) && (e <=? 971)
  | _ => false
  end.

(** Every call [F(n, k)] with [0 <= k <= n <= N] gives such a double,
    read from one shared table of doubles. *)
Definition all_normal_or_zero (N : Z) : bool :=
  let dtbl : cache float := Double.fill (triangle N) (@stdpp.base.empty (cache float) _) in
  forallb (fun p => match Double.double_of dtbl (fst p) (snd p) with
                    | Some x => normal_or_zero x
                    | None => false
                    end) (triangle N).

(** ** Powers *)

Local Open Scope Q_scope.

Lemma pow2_pos (a : Z) : 0 < pow2 a.
Proof. apply Qpower_0_lt. reflexivity. Qed.

Lemma pow10_pos (a : Z) : 0 < pow10 a.
Proof. apply Qpower_0_lt. reflexivity. Qed.

Lemma pow2_Z (a : Z) : (0 <= a)%Z -> pow2 a == inject_Z (2 ^ a).
Proof. intros Ha. unfold pow2. rewrite Zpower_Qpower by exact Ha. reflexivity. Qed.

Lemma pow10_Z (a : Z) : (0 <= a)%Z -> pow10 a == inject_Z (10 ^ a).
Proof. intros Ha. unfold pow10. rewrite Zpower_Qpower by exact Ha. reflexivity. Qed.

Lemma pow2_plus (a b : Z) : pow2 (a + b) == pow2 a * pow2 b.
Proof. apply Qpower_plus. discriminate. Qed.

Lemma pow10_plus (a b : Z) : pow10 (a + b) == pow10 a * pow10 b.
Proof. apply Qpower_plus. discriminate. Qed.

Lemma pow2_lt (a b : Z) : (a < b)%Z -> pow2 a < pow2 b.
Proof. intros H. apply Qpower_lt_compat_l; [exact H|reflexivity]. Qed.

Lemma pow10_lt_inv (a b : Z) : pow10 a < pow10 b -> (a < b)%Z.
Proof. intros H. exact (Qpower_lt_compat_l_inv _ _ _ H ltac:(reflexivity)). Qed.

Lemma pow10_le_inv (a b : Z) : pow10 a <= pow10 b -> (a <= b)%Z.
Proof. intros H. exact (Qpower_le_compat_l_inv _ _ _ H ltac:(reflexivity)). Qed.

(** [2^a] and [10^a] for a negative [a], as inverses of integers. *)
Lemma pow2_neg (a : Z) : (a <= 0)%Z -> pow2 a == / inject_Z (2 ^ (- a)).
Proof.
  intros Ha. unfold pow2. replace a with (- (- a))%Z at 1 by lia.
  rewrite Qpower_opp, Zpower_Qpower by lia. reflexivity.
Qed.

Lemma pow10_neg (a : Z) : (a <= 0)%Z -> pow10 a == / inject_Z (10 ^ (- a)).
Proof.
  intros Ha. unfold pow10. replace a with (- (- a))%Z at 1 by lia.
  rewrite Qpower_opp, Zpower_Qpower by lia. reflexivity.
Qed.

Lemma Qinv_le_contra (a b : Q) : 0 < a -> a <= b -> / b <= / a.
Proof.
  intros Ha Hab. destruct (Qeq_dec a b) as [E|E]; [rewrite E; apply Qle_refl|].
  apply Qlt_le_weak. apply (proj1 (Qinv_lt_contravar a b Ha ltac:(lra))).
  destruct (Qle_lt_or_eq _ _ Hab) as [Hlt|Heq]; [exact Hlt|contradiction].
Qed.

Lemma Qltb_spec (a b : Q) : Qltb a b = true <-> a < b.
Proof.
  unfold Qltb. rewrite negb_true_iff. split; intros H.
  - apply Qnot_le_lt. intros H'. apply Qle_bool_iff in H'. congruence.
  - destruct (Qle_bool b a) eqn:E; [apply Qle_bool_iff in E; lra|reflexivity].
Qed.

Lemma inject_Z_lt0 (z : Z) : (0 < z)%Z -> 0 < inject_Z z.
Proof. intros Hz. change 0 with (inject_Z 0). rewrite <- Zlt_Qlt. exact Hz. Qed.

Lemma inject_pos (m : positive) : 1 <= inject_Z (Zpos m).
Proof. change 1 with (inject_Z 1). rewrite <- Zle_Qle. lia. Qed.

(** ** The decimal exponent of a power of two *)

Lemma dexp_ok_spec (j n : Z) : dexp_ok j n = true -> pow10 (n - 1) <= pow2 j /\ pow2 j < pow10 n.
Proof.
  unfold dexp_ok. rewrite !Z.shiftl_1_l. cbv zeta.
  destruct (Z.leb_spec 0 j) as [Hj|Hj]; intros Hok;
    apply andb_prop in Hok as [Hok H3]; apply andb_prop in Hok as [H1 H2];
    apply Z.leb_le in H1, H2; apply Z.ltb_lt in H3.
  - replace (10 * 10 ^ (n - 1))%Z with (10 ^ n)%Z in H3
      by (replace n with (Z.succ (n - 1)) at 1 by lia; rewrite Z.pow_succ_r by lia; ring).
    rewrite pow10_Z, pow2_Z, pow10_Z by lia.
    split; [rewrite <- Zle_Qle|rewrite <- Zlt_Qlt]; lia.
  - replace (10 * 10 ^ (- n))%Z with (10 ^ (1 - n))%Z in H2
      by (replace (1 - n)%Z with (Z.succ (- n)) by lia; rewrite Z.pow_succ_r by lia; ring).
    rewrite pow10_neg, pow2_neg, pow10_neg by lia.
    replace (- (n - 1))%Z with (1 - n)%Z by lia.
    assert (HB : (0 < 2 ^ (- j))%Z) by (apply Z.pow_pos_nonneg; lia).
    assert (HC : (0 < 10 ^ (- n))%Z) by (apply Z.pow_pos_nonneg; lia).
    split.
    + apply Qinv_le_contra; [apply inject_Z_lt0; lia|rewrite <- Zle_Qle; lia].
    + apply (proj1 (Qinv_lt_contravar _ _ (inject_Z_lt0 _ HC) (inject_Z_lt0 _ HB))).
      rewrite <- Zlt_Qlt. exact H3.
Qed.

Lemma dexp_ok_up (j n : Z) : (0 <= j)%Z -> (1 <= n)%Z ->
  (10 ^ (n - 1) <= 2 ^ j < 10 * 10 ^ (n - 1))%Z -> dexp_ok j n = true.
Proof.
  intros Hj Hn Hb. unfold dexp_ok. rewrite !Z.shiftl_1_l.
  destruct (Z.leb_spec 0 j); [|lia]. cbv zeta.
  rewrite !andb_true_iff; repeat split; [apply Z.leb_le|apply Z.leb_le|apply Z.ltb_lt]; lia.
Qed.

Lemma dexp_ok_down (j n : Z) : (j < 0)%Z -> (n <= 0)%Z ->
  (10 ^ (- n) < 2 ^ (- j) <= 10 * 10 ^ (- n))%Z -> dexp_ok j n = true.
Proof.
  intros Hj Hn Hb. unfold dexp_ok. rewrite !Z.shiftl_1_l.
  destruct (Z.leb_spec 0 j); [lia|]. cbv zeta.
  rewrite !andb_true_iff; repeat split; [apply Z.leb_le|apply Z.leb_le|apply Z.ltb_lt]; lia.
Qed.

(** A power of two has one decimal exponent. *)
Lemma dexp_ok_unique (j n1 n2 : Z) : dexp_ok j n1 = true -> dexp_ok j n2 = true -> n1 = n2.
Proof.
  intros H1 H2. apply dexp_ok_spec in H1 as [A1 B1]. apply dexp_ok_spec in H2 as [A2 B2].
  assert (n1 - 1 < n2)%Z by (apply pow10_lt_inv; lra).
  assert (n2 - 1 < n1)%Z by (apply pow10_lt_inv; lra). lia.
Qed.

(** [dexp] finds the exponent when the estimate is within two of it. *)
Lemma dexp_pick (j n : Z) : dexp_ok j n = true ->
  (dexp_est j <= n <= dexp_est j + 2)%Z -> dexp j = n.
Proof.
  intros Hn Hr. unfold dexp. cbv zeta.
  destruct (dexp_ok j (dexp_est j + 1)) eqn:E1; [exact (dexp_ok_unique _ _ _ E1 Hn)|].
  destruct (dexp_ok j (dexp_est j)) eqn:E0; [exact (dexp_ok_unique _ _ _ E0 Hn)|].
  assert (n <> dexp_est j + 1)%Z by (intros ->; congruence).
  assert (n <> dexp_est j)%Z by (intros ->; congruence). lia.
Qed.

(** What the scans establish of one exponent. *)
Definition dexp_found (j : Z) : Prop :=
  dexp_ok j (dexp j) = true /\ (dexp_est j <= dexp j <= dexp_est j + 2)%Z.

Lemma scan_up_ok (fuel : nat) : forall j b p n,
  scan_up fuel j b p n = true -> (0 <= j)%Z -> b = (2 ^ j)%Z -> (1 <= n)%Z ->
  p = (10 ^ (n - 1))%Z -> (p <= b < 10 * p)%Z ->
  forall j', (j <= j' < j + Z.of_nat fuel)%Z -> dexp_found j'.
Proof.
  induction fuel as [|f IH]; intros j b p n Hs Hj Hb Hn Hp Hbp j' Hj'; [lia|].
  cbn [scan_up] in Hs. apply andb_prop in Hs as [He Hs]. apply andb_prop in He as [H1 H2].
  apply Z.leb_le in H1, H2.
  destruct (Z.eq_dec j' j) as [->|Hne].
  - assert (Hok : dexp_ok j n = true) by (apply dexp_ok_up; lia).
    unfold dexp_found. rewrite (dexp_pick _ _ Hok) by lia. split; [exact Hok|lia].
  - assert (H2b : (2 * b = 2 ^ (j + 1))%Z) by (rewrite Z.pow_add_r by lia; lia).
    destruct (Z.ltb_spec (2 * b) (10 * p)).
    + apply (IH (j + 1)%Z (2 * b)%Z p n); try exact Hs; try lia.
    + apply (IH (j + 1)%Z (2 * b)%Z (10 * p)%Z (n + 1)%Z); try exact Hs; try lia.
      subst p. replace (n + 1 - 1)%Z with (Z.succ (n - 1)) by lia.
      rewrite Z.pow_succ_r by lia. ring.
Qed.

Lemma scan_down_ok (fuel : nat) : forall j b q n,
  scan_down fuel j b q n = true -> (j < 0)%Z -> b = (2 ^ (- j))%Z -> (n <= 0)%Z ->
  q = (10 ^ (- n))%Z -> (q < b <= 10 * q)%Z ->
  forall j', (j - Z.of_nat fuel < j' <= j)%Z -> dexp_found j'.
Proof.
  induction fuel as [|f IH]; intros j b q n Hs Hj Hb Hn Hq Hbq j' Hj'; [lia|].
  cbn [scan_down] in Hs. apply andb_prop in Hs as [He Hs]. apply andb_prop in He as [H1 H2].
  apply Z.leb_le in H1, H2.
  destruct (Z.eq_dec j' j) as [->|Hne].
  - assert (Hok : dexp_ok j n = true) by (apply dexp_ok_down; lia).
    unfold dexp_found. rewrite (dexp_pick _ _ Hok) by lia. split; [exact Hok|lia].
  - assert (H2b : (2 * b = 2 ^ (- (j - 1)))%Z)
      by (replace (- (j - 1))%Z with (Z.succ (- j)) by lia; rewrite Z.pow_succ_r by lia; lia).
    destruct (Z.leb_spec (2 * b) (10 * q)).
    + apply (IH (j - 1)%Z (2 * b)%Z q n); try exact Hs; try lia.
    + apply (IH (j - 1)%Z (2 * b)%Z (10 * q)%Z (n - 1)%Z); try exact Hs; try lia.
      subst q. replace (- (n - 1))%Z with (Z.succ (- n)) by lia.
      rewrite Z.pow_succ_r by lia. ring.
Qed.

(** The two scans over every exponent a double needs, run once. *)
Lemma scan_up_all : scan_up 1026 0 1 1 1 = true.
Proof. vm_compute. reflexivity. Qed.

Lemma scan_down_all : scan_down 1076 (-1) 2 1 0 = true.
Proof. vm_compute. reflexivity. Qed.

(** The estimate of [dexp] is right on every exponent a double needs. *)
Lemma dexp_all (j : Z) : (-1076 <= j <= 1025)%Z -> dexp_found j.
Proof.
  intros Hj. destruct (Z.leb_spec 0 j).
  - apply (scan_up_ok _ _ _ _ _ scan_up_all); cbn; lia.
  - apply (scan_down_ok _ _ _ _ _ scan_down_all); cbn; lia.
Qed.

Lemma dexp_correct (j : Z) : (-1076 <= j <= 1025)%Z ->
  pow10 (dexp j - 1) <= pow2 j /\ pow2 j < pow10 (dexp j).
Proof. intros Hj. apply dexp_ok_spec, (dexp_all j Hj). Qed.

Lemma dexp_range (j : Z) : (-1076 <= j <= 1025)%Z -> (-400 <= dexp j <= 400)%Z.
Proof. intros Hj. destruct (dexp_all j Hj) as [_ H]. unfold dexp_est in H.
  Z.to_euclidean_division_equations. lia.
Qed.

(** ** The value of a double and its rounding interval *)

Lemma fval_bounds (m : positive) (e : Z) :
  pow2 (bin_exp m e - 1) <= fval m e /\ fval m e < pow2 (bin_exp m e).
Proof.
  unfold fval, bin_exp.
  pose proof (Z.log2_spec (Zpos m) ltac:(lia)) as [Hlo Hhi].
  pose proof (Z.log2_nonneg (Zpos m)) as Hl0.
  replace (e + Z.log2 (Zpos m) + 1 - 1)%Z with (Z.log2 (Zpos m) + e)%Z by lia.
  replace (e + Z.log2 (Zpos m) + 1)%Z with (Z.succ (Z.log2 (Zpos m)) + e)%Z by lia.
  rewrite !pow2_plus, (pow2_Z (Z.log2 _)), (pow2_Z (Z.succ _)) by lia. split.
  - apply Qmult_le_compat_r; [rewrite <- Zle_Qle; exact Hlo|apply Qlt_le_weak, pow2_pos].
  - apply Qmult_lt_compat_r; [apply pow2_pos|rewrite <- Zlt_Qlt; exact Hhi].
Qed.

Lemma lo_of_half (m : positive) (e : Z) : (1 # 2) * fval m e <= lo_of m e.
Proof.
  unfold lo_of, fval. pose proof (inject_pos m). rewrite Qmult_assoc.
  destruct (_ && _); apply Qmult_le_compat_r; try apply Qlt_le_weak, pow2_pos; lra.
Qed.

Lemma hi_of_three_halves (m : positive) (e : Z) : hi_of m e <= (3 # 2) * fval m e.
Proof.
  unfold hi_of, fval. pose proof (inject_pos m). rewrite Qmult_assoc.
  apply Qmult_le_compat_r; [lra|apply Qlt_le_weak, pow2_pos].
Qed.

Lemma rounds_to_between (d : Q) (m : positive) (e : Z) :
  rounds_to d m e = true -> lo_of m e <= d /\ d <= hi_of m e.
Proof.
  unfold rounds_to. destruct (Z.even _); intros H; apply andb_prop in H as [H1 H2].
  - apply Qle_bool_iff in H1, H2. auto.
  - apply Qltb_spec in H1, H2. split; apply Qlt_le_weak; assumption.
Qed.

(** The decimal of step 5 has [n] digits before the point. *)
Lemma es_ok_range (m : positive) (e : Z) (s k n : Z) :
  es_ok m e s k n = true ->
  (1 <= k)%Z /\ (10 ^ (k - 1) <= s < 10 ^ k)%Z /\
  pow10 (n - 1) <= dec_val s k n /\ dec_val s k n < pow10 n /\ rounds_to (dec_val s k n) m e = true.
Proof.
  unfold es_ok. intros H.
  apply andb_prop in H as [H Hr]. apply andb_prop in H as [H H3]. apply andb_prop in H as [H1 H2].
  apply Z.leb_le in H1, H2. apply Z.ltb_lt in H3.
  split; [exact H1|]. split; [lia|]. split; [|split; [|exact Hr]]; unfold dec_val.
  - assert (E : pow10 (n - 1) == pow10 (k - 1) * pow10 (n - k))
      by (rewrite <- pow10_plus; replace (k - 1 + (n - k))%Z with (n - 1)%Z by lia; reflexivity).
    rewrite E, (pow10_Z (k - 1)) by lia.
    apply Qmult_le_compat_r; [rewrite <- Zle_Qle; exact H2|apply Qlt_le_weak, pow10_pos].
  - assert (E : pow10 n == pow10 k * pow10 (n - k))
      by (rewrite <- pow10_plus; replace (k + (n - k))%Z with n by lia; reflexivity).
    rewrite E, (pow10_Z k) by lia.
    apply Qmult_lt_compat_r; [apply pow10_pos|rewrite <- Zlt_Qlt; exact H3].
Qed.

(** ** The candidates are exactly the decimals of step 5 *)

Lemma bin_exp_range (m : positive) (e : Z) : valid_pos m e -> (-1073 <= bin_exp m e <= 1024)%Z.
Proof.
  intros (He & Hm & _). unfold bin_exp.
  pose proof (Z.log2_nonneg (Zpos m)).
  assert (Z.log2 (Zpos m) < 53)%Z by (apply Z.log2_lt_pow2; lia).
  lia.
Qed.

Lemma ncands_complete (m : positive) (e : Z) (s k n : Z) :
  valid_pos m e -> es_ok m e s k n = true -> In n (ncands m e).
Proof.
  intros Hv Hok. pose proof (bin_exp_range m e Hv) as HL.
  destruct (es_ok_range _ _ _ _ _ Hok) as (_ & _ & Hd1 & Hd2 & Hr).
  destruct (rounds_to_between _ _ _ Hr) as [Hlo Hhi].
  pose proof (lo_of_half m e). pose proof (hi_of_three_halves m e).
  destruct (fval_bounds m e) as [Hf1 Hf2].
  unfold ncands. set (L := bin_exp m e) in *.
  destruct (dexp_correct (L - 3) ltac:(lia)) as [D1 _].
  destruct (dexp_correct (L + 1) ltac:(lia)) as [_ D2].
  assert (E1 : pow2 (L - 1) == pow2 (L - 3) * 4).
  { replace (L - 1)%Z with ((L - 3) + 2)%Z by lia. rewrite pow2_plus. reflexivity. }
  assert (E2 : pow2 (L + 1) == pow2 L * 2).
  { rewrite pow2_plus. reflexivity. }
  pose proof (pow2_pos (L - 3)). pose proof (pow2_pos L).
  apply in_zrange. split.
  - cut (dexp (L - 3) - 1 < n)%Z; [lia|]. apply pow10_lt_inv. lra.
  - cut (n - 1 < dexp (L + 1))%Z; [lia|]. apply pow10_lt_inv. lra.
Qed.

Lemma srange_complete (m : positive) (e : Z) (s k n : Z) :
  es_ok m e s k n = true -> In s (srange m e k n).
Proof.
  intros Hok. destruct (es_ok_range _ _ _ _ _ Hok) as (Hk & Hs & _ & _ & Hr).
  destruct (rounds_to_between _ _ _ Hr) as [Hlo Hhi]. unfold dec_val in Hlo, Hhi.
  assert (E : inject_Z s == inject_Z s * pow10 (n - k) * pow10 (k - n)).
  { rewrite <- Qmult_assoc, <- pow10_plus. replace (n - k + (k - n))%Z with 0%Z by lia.
    unfold pow10. rewrite Qpower_0_r, Qmult_1_r. reflexivity. }
  pose proof (pow10_pos (k - n)).
  unfold srange. apply in_zrange. split.
  - apply Z.max_lub; [lia|]. rewrite <- (Qceiling_Z s). apply Qceiling_resp_le.
    rewrite E. apply Qmult_le_compat_r; [exact Hlo|lra].
  - apply Z.min_glb; [lia|]. rewrite <- (Qfloor_Z s). apply Qfloor_resp_le.
    rewrite E. apply Qmult_le_compat_r; [exact Hhi|lra].
Qed.

Lemma cands_complete (m : positive) (e : Z) (s k n : Z) :
  valid_pos m e -> es_ok m e s k n = true -> In (s, n) (cands m e k).
Proof.
  intros Hv Hok. unfold cands. apply in_flat_map. exists n.
  split; [exact (ncands_complete _ _ _ _ _ Hv Hok)|].
  apply in_map_iff. exists s. split; [reflexivity|].
  apply filter_In. split; [exact (srange_complete _ _ _ _ _ Hok)|exact Hok].
Qed.

Lemma cands_sound (m : positive) (e : Z) (k : Z) (c : Z * Z) :
  In c (cands m e k) -> es_ok m e (fst c) k (snd c) = true.
Proof.
  unfold cands. intros Hin. apply in_flat_map in Hin as (n & _ & Hin).
  apply in_map_iff in Hin as (s & <- & Hin). apply filter_In in Hin as [_ Hok]. exact Hok.
Qed.

(** ** Step 6: the choice among the candidates of the least [k] *)

Section Pick.
Variables (m : positive) (e : Z) (k : Z).

(** [b] is a closest element of [S], and even when an even element of
    [S] is as close. *)
Definition pick_inv (b : Z * Z) (S : Z * Z -> Prop) : Prop :=
  S b /\ (forall c, S c -> dist m e k b <= dist m e k c) /\
  (forall c, S c -> dist m e k c == dist m e k b -> Z.even (fst c) = true -> Z.even (fst b) = true).

Lemma pick_inv_iff (b : Z * Z) (S S' : Z * Z -> Prop) :
  (forall c, S c <-> S' c) -> pick_inv b S -> pick_inv b S'.
Proof.
  intros HS (Hb & Hmin & Hev). split; [apply HS, Hb|split].
  - intros c Hc. apply Hmin, HS, Hc.
  - intros c Hc. apply Hev, HS, Hc.
Qed.

Lemma pick_inv_step (b c : Z * Z) (S : Z * Z -> Prop) :
  pick_inv b S -> pick_inv (if better m e k c b then c else b) (fun x => x = c \/ S x).
Proof.
  intros (Hb & Hmin & Hev). unfold better.
  destruct (Qltb (dist m e k c) (dist m e k b)) eqn:Elt; cbn [orb].
  - apply Qltb_spec in Elt. split; [left; reflexivity|split].
    + intros x [->|Hx]; [apply Qle_refl|]. specialize (Hmin x Hx). lra.
    + intros x [->|Hx] Heq Hx2; [exact Hx2|]. specialize (Hmin x Hx). lra.
  - assert (Hge : dist m e k b <= dist m e k c)
      by (apply Qnot_lt_le; intros Hlt; apply Qltb_spec in Hlt; congruence).
    destruct (Qeq_bool (dist m e k c) (dist m e k b) && Z.even (fst c)) eqn:Etie.
    + apply andb_prop in Etie as [Eq Hc2]. apply Qeq_bool_iff in Eq.
      split; [left; reflexivity|split].
      * intros x [->|Hx]; [apply Qle_refl|]. specialize (Hmin x Hx). lra.
      * intros x _ _ _. exact Hc2.
    + split; [right; exact Hb|split].
      * intros x [->|Hx]; [exact Hge|exact (Hmin x Hx)].
      * intros x [->|Hx] Heq Hx2; [|exact (Hev x Hx Heq Hx2)].
        apply Qeq_bool_iff in Heq. rewrite Heq, Hx2 in Etie. discriminate Etie.
Qed.

Lemma fold_pick_inv (cs : list (Z * Z)) (b : Z * Z) (S : Z * Z -> Prop) :
  pick_inv b S ->
  pick_inv (fold_left (fun b c => if better m e k c b then c else b) cs b) (fun x => In x cs \/ S x).
Proof.
  revert b S. induction cs as [|c cs IH]; intros b S Hinv; cbn [fold_left].
  - apply (pick_inv_iff b S); [|exact Hinv]. intros x. cbn. tauto.
  - eapply pick_inv_iff; [|exact (IH _ _ (pick_inv_step b c S Hinv))].
    intros x. cbn. intuition congruence.
Qed.

Lemma pick_spec (c : Z * Z) (cs : list (Z * Z)) : pick_inv (pick m e k c cs) (fun x => In x (c :: cs)).
Proof.
  unfold pick. apply (pick_inv_iff _ (fun x => In x cs \/ x = c)); [intros x; cbn; intuition congruence|].
  apply fold_pick_inv. split; [reflexivity|split].
    + intros x ->. apply Qle_refl.
    + intros x -> _ Hx. exact Hx.
Qed.

End Pick.

(** ** The search over [k] *)

Lemma search_spec (m : positive) (e : Z) (fuel : nat) (k0 s k n : Z) :
  search m e fuel k0 = Some (s, k, n) ->
  (k0 <= k < k0 + Z.of_nat fuel)%Z /\ (forall k', (k0 <= k' < k)%Z -> cands m e k' = []) /\
  exists c cs, cands m e k = c :: cs /\ pick m e k c cs = (s, n).
Proof.
  revert k0. induction fuel as [|f IH]; intros k0 Hs; [discriminate|].
  cbn [search] in Hs. destruct (cands m e k0) as [|c cs] eqn:E.
  - destruct (IH _ Hs) as (Hk & Hnone & Hpick). split; [lia|split; [|exact Hpick]].
    intros k' Hk'. destruct (Z.eq_dec k' k0) as [->|Hne]; [exact E|apply Hnone; lia].
  - destruct (pick m e k0 c cs) as [s0 n0] eqn:Ep. injection Hs as -> -> ->.
    split; [lia|split; [intros k' Hk'; lia|]]. exists c, cs. split; [exact E|exact Ep].
Qed.

(** ** Seventeen digits always suffice *)

Lemma search_none (m : positive) (e : Z) (fuel : nat) (k0 : Z) :
  search m e fuel k0 = None -> forall k, (k0 <= k < k0 + Z.of_nat fuel)%Z -> cands m e k = [].
Proof.
  revert k0. induction fuel as [|f IH]; intros k0 Hs k Hk; [lia|].
  cbn [search] in Hs. destruct (cands m e k0) as [|c cs] eqn:E.
  - destruct (Z.eq_dec k k0) as [->|Hne]; [exact E|apply (IH _ Hs); lia].
  - destruct (pick m e k0 c cs). discriminate Hs.
Qed.

Lemma pow10_le (a b : Z) : (a <= b)%Z -> pow10 a <= pow10 b.
Proof. intros H. apply Qpower_le_compat_l; [exact H|discriminate]. Qed.

Lemma pow10_split (a b : Z) : (0 <= a)%Z -> pow10 (a + b) == inject_Z (10 ^ a) * pow10 b.
Proof. intros Ha. rewrite pow10_plus, pow10_Z by exact Ha. reflexivity. Qed.

(** A decimal strictly inside the interval rounds to the double, whatever
    the parity of [m]. *)
Lemma rounds_to_inside (d : Q) (m : positive) (e : Z) :
  lo_of m e < d -> d < hi_of m e -> rounds_to d m e = true.
Proof.
  intros H1 H2. unfold rounds_to. destruct (Z.even _); apply andb_true_intro; split;
    first [apply Qle_bool_iff; lra|apply Qltb_spec; assumption].
Qed.

Lemma es_ok_inside (m : positive) (e : Z) (s k n : Z) :
  (1 <= k)%Z -> (10 ^ (k - 1) <= s < 10 ^ k)%Z ->
  lo_of m e < dec_val s k n -> dec_val s k n < hi_of m e -> es_ok m e s k n = true.
Proof.
  intros Hk Hs H1 H2. unfold es_ok. rewrite rounds_to_inside by assumption.
  rewrite (proj2 (Z.leb_le _ _) Hk), (proj2 (Z.leb_le _ _) (proj1 Hs)),
    (proj2 (Z.ltb_lt _ _) (proj2 Hs)).
  reflexivity.
Qed.

Lemma fval_inside (m : positive) (e : Z) : lo_of m e < fval m e /\ fval m e < hi_of m e.
Proof.
  unfold lo_of, hi_of, fval. pose proof (pow2_pos e).
  destruct (_ && _); split; apply Qmult_lt_compat_r; lra.
Qed.

(** The rounding interval is wider than [m * 2^e / 10^16]: it is [2^e]
    wide, or [3/4 * 2^e] at a power of two, and [m < 2^53 < 10^16]. *)
Lemma interval_wide (m : positive) (e : Z) :
  valid_pos m e -> fval m e * (1 # 10000000000000000) < hi_of m e - lo_of m e.
Proof.
  intros (_ & Hm & _). unfold lo_of, hi_of, fval. pose proof (pow2_pos e) as HP.
  assert (HmQ : inject_Z (Zpos m) < inject_Z 9007199254740992) by (rewrite <- Zlt_Qlt; exact Hm).
  change (inject_Z 9007199254740992) with (9007199254740992 # 1) in HmQ.
  destruct (_ && _) eqn:E.
  - apply andb_prop in E as [E _]. apply Z.eqb_eq in E. rewrite E.
    change (inject_Z (2 ^ 52)) with (4503599627370496 # 1). lra.
  - assert (W1 : (inject_Z (Zpos m) + (1 # 2)) * pow2 e - (inject_Z (Zpos m) - (1 # 2)) * pow2 e
                  == 1 * pow2 e) by ring.
    assert (W2 : inject_Z (Zpos m) * pow2 e * (1 # 10000000000000000)
                 == inject_Z (Zpos m) * (1 # 10000000000000000) * pow2 e) by ring.
    rewrite W1, W2. apply Qmult_lt_compat_r; [exact HP|lra].
Qed.

(** Every positive finite double has a decimal exponent [N]. *)
Lemma fval_dexp (m : positive) (e : Z) : valid_pos m e ->
  exists N, pow10 (N - 1) <= fval m e /\ fval m e < pow10 N.
Proof.
  intros Hv. pose proof (bin_exp_range m e Hv). destruct (fval_bounds m e) as [F1 F2].
  set (L := bin_exp m e) in *.
  destruct (dexp_correct (L - 1) ltac:(lia)) as [A1 A2].
  destruct (dexp_correct L ltac:(lia)) as [B1 B2].
  assert (E : pow2 L == pow2 (L - 1) * 2)
    by (replace L with (L - 1 + 1)%Z at 1 by lia; rewrite pow2_plus; reflexivity).
  assert (E10 : pow10 (dexp (L - 1) + 1) == pow10 (dexp (L - 1)) * 10)
    by (rewrite pow10_plus; reflexivity).
  pose proof (pow10_pos (dexp (L - 1))).
  assert (Hb : (dexp L <= dexp (L - 1) + 1)%Z).
  { cut (dexp L - 1 < dexp (L - 1) + 1)%Z; [lia|]. apply pow10_lt_inv. lra. }
  destruct (Qlt_le_dec (fval m e) (pow10 (dexp (L - 1)))) as [Hlt|Hge].
  - exists (dexp (L - 1)). split; [lra|exact Hlt].
  - exists (dexp (L - 1) + 1)%Z. replace (dexp (L - 1) + 1 - 1)%Z with (dexp (L - 1)) by lia.
    split; [exact Hge|]. pose proof (pow10_le _ _ Hb). lra.
Qed.

(** An open interval wider than [d > 0] holds a multiple of [d]. *)
Lemma multiple_inside (lo hi d : Q) : 0 < d -> d < hi - lo ->
  exists t : Z, lo < inject_Z t * d /\ inject_Z t * d < hi.
Proof.
  intros Hd Hw. exists (Qfloor (lo / d) + 1)%Z.
  pose proof (Qlt_floor (lo / d)) as H1. pose proof (Qfloor_le (lo / d)) as H2.
  assert (E : lo / d * d == lo) by (field; apply Qnot_eq_sym, Qlt_not_eq, Hd).
  split.
  - rewrite <- E at 1. apply Qmult_lt_compat_r; assumption.
  - rewrite inject_Z_plus in *. change (inject_Z 1) with 1 in *.
    apply Qle_lt_trans with ((lo / d + 1) * d); [apply Qmult_le_compat_r; lra|].
    assert (W : (lo / d + 1) * d == lo / d * d + d) by ring. rewrite W. lra.
Qed.

(** The least 17-digit decimal of exponent [n] is [10^(n-1)]. *)
Lemma dec_val_lead (n : Z) : dec_val (10 ^ 16) 17 n == pow10 (n - 1).
Proof.
  unfold dec_val. rewrite <- pow10_split by lia.
  replace (16 + (n - 17))%Z with (n - 1)%Z by lia. reflexivity.
Qed.

(** Step 5 always has a solution with [k = 17]. *)
Lemma seventeen_digits (m : positive) (e : Z) : valid_pos m e ->
  exists s n, es_ok m e s 17 n = true.
Proof.
  intros Hv. destruct (fval_dexp m e Hv) as (N & HN1 & HN2).
  destruct (fval_inside m e) as [Hl Hh].
  pose proof (pow10_pos (N - 17)) as Hd.
  assert (E16 : pow10 (N - 1) == inject_Z (10 ^ 16) * pow10 (N - 17))
    by (replace (N - 1)%Z with (16 + (N - 17))%Z by lia; apply pow10_split; lia).
  assert (E17 : pow10 N == inject_Z (10 ^ 17) * pow10 (N - 17))
    by (replace N with (17 + (N - 17))%Z at 1 by lia; apply pow10_split; lia).
  assert (Hw : pow10 (N - 17) < hi_of m e - lo_of m e).
  { pose proof (interval_wide m e Hv).
    assert (Ed : pow10 (N - 17) == pow10 (N - 1) * (1 # 10000000000000000)).
    { replace (N - 17)%Z with (N - 1 + -16)%Z by lia. rewrite pow10_plus. reflexivity. }
    rewrite Ed. apply Qle_lt_trans with (fval m e * (1 # 10000000000000000)); [|assumption].
    apply Qmult_le_compat_r; [exact HN1|discriminate]. }
  destruct (multiple_inside _ _ _ Hd Hw) as (t & Ht1 & Ht2).
  assert (Hs : (10 ^ (17 - 1) <= 10 ^ 16 < 10 ^ 17)%Z) by (split; [apply Z.leb_le|apply Z.ltb_lt]; reflexivity).
  destruct (Qlt_le_dec (inject_Z t * pow10 (N - 17)) (pow10 (N - 1))) as [Hy|Hy];
    [|destruct (Qlt_le_dec (inject_Z t * pow10 (N - 17)) (pow10 N)) as [Hy'|Hy']].
  - exists (10 ^ 16)%Z, N. apply es_ok_inside; [lia|exact Hs| |]; rewrite dec_val_lead; lra.
  - exists t, N. apply es_ok_inside; [lia| |unfold dec_val; lra|unfold dec_val; lra].
    split.
    + change (17 - 1)%Z with 16%Z. rewrite Zle_Qle, <- (Qmult_le_r _ _ _ Hd), <- E16.
      exact Hy.
    + rewrite Zlt_Qlt, <- (Qmult_lt_r _ _ _ Hd), <- E17. exact Hy'.
  - exists (10 ^ 16)%Z, (N + 1)%Z.
    apply es_ok_inside; [lia|exact Hs| |]; rewrite dec_val_lead;
      replace (N + 1 - 1)%Z with N by lia; lra.
Qed.

(** The search of [shortest] never runs out of fuel. *)
Lemma shortest_some (m : positive) (e : Z) : valid_pos m e -> shortest m e <> None.
Proof.
  intros Hv Hs. destruct (seventeen_digits m e Hv) as (s & n & Hok).
  pose proof (cands_complete _ _ _ _ _ Hv Hok) as Hin.
  rewrite (search_none _ _ _ _ Hs 17 ltac:(cbn; lia)) in Hin. destruct Hin.
Qed.

(** ** Digits *)

Section Digits.
Local Open Scope Z_scope.

Definition is_digits (l : list ascii) : Prop := Forall (fun c => exists d, 0 <= d <= 9 /\ c = digit d) l.

Lemma digit_dval (d : Z) : 0 <= d <= 9 -> dval (digit d) = Some d.
Proof.
  intros Hd. unfold dval, digit. rewrite nat_ascii_embedding by lia.
  rewrite Nat2Z.inj_add, Z2Nat.id by lia.
  replace (Z.of_nat 48 + d - 48) with d by lia.
  replace ((0 <=? d) && (d <=? 9))%bool with true by (symmetry; apply andb_true_iff; lia).
  reflexivity.
Qed.

Lemma dvalue_app (l1 l2 : list ascii) (a : Z) :
  dvalue (l1 ++ l2) a = match dvalue l1 a with Some v => dvalue l2 v | None => None end.
Proof.
  revert a. induction l1 as [|c l1 IH]; intros a; [reflexivity|].
  cbn [app dvalue]. destruct (dval c); [apply IH|reflexivity].
Qed.

Lemma dvalue_zeros (c : Z) (a : Z) : 0 <= c -> dvalue (zeros c) a = Some (a * 10 ^ c).
Proof.
  intros Hc. unfold zeros. rewrite <- (Z2Nat.id c) at 2 by exact Hc.
  generalize (Z.to_nat c) as t. intros t. revert a.
  induction t as [|t IH]; intros a; cbn [repeat dvalue].
  - f_equal. lia.
  - change (dval "0"%char) with (Some 0). cbv beta iota. rewrite IH. f_equal.
    rewrite Nat2Z.inj_succ, Z.pow_succ_r by lia. ring.
Qed.

Lemma zeros_digits (c : Z) : is_digits (zeros c).
Proof. unfold zeros. apply Forall_forall. intros x Hx. apply repeat_spec in Hx. exists 0. split; [lia|exact Hx]. Qed.

Lemma digits_rev_facts (f : nat) (s : Z) :
  0 <= s < 10 ^ Z.of_nat f -> (1 <= f)%nat ->
  dvalue (rev (digits_rev f s)) 0 = Some s /\ is_digits (digits_rev f s) /\ digits_rev f s <> [].
Proof.
  revert s. induction f as [|f IH]; intros s Hs Hf; [lia|].
  pose proof (Z.mod_pos_bound s 10 ltac:(lia)) as Hmod.
  cbn [digits_rev rev]. destruct (Z.ltb_spec s 10) as [Hlt|Hge].
  - cbn [rev app]. rewrite Z.mod_small by lia. split; [|split; [|discriminate]].
    + cbn [dvalue]. rewrite digit_dval by lia. f_equal.
    + constructor; [exists s; split; [lia|reflexivity]|constructor].
  - assert (Hf' : (1 <= f)%nat).
    { destruct f; [|lia]. cbn in Hs. lia. }
    assert (Hq : 0 <= s / 10 < 10 ^ Z.of_nat f).
    { split; [apply Z.div_pos; lia|]. apply Z.div_lt_upper_bound; [lia|].
      rewrite <- Z.pow_succ_r by lia. rewrite <- Nat2Z.inj_succ. lia. }
    destruct (IH (s / 10) Hq Hf') as (Hv & Hd & _).
    split; [|split; [|discriminate]].
    + rewrite dvalue_app, Hv. cbn [dvalue]. rewrite digit_dval by lia. f_equal.
      pose proof (Z.div_mod s 10 ltac:(lia)). lia.
    + constructor; [exists (s mod 10); split; [lia|reflexivity]|exact Hd].
Qed.

Lemma digits_rev_length (f : nat) (s k : Z) :
  1 <= k <= Z.of_nat f -> 10 ^ (k - 1) <= s < 10 ^ k -> List.length (digits_rev f s) = Z.to_nat k.
Proof.
  revert s k. induction f as [|f IH]; intros s k Hk Hs; [lia|].
  cbn [digits_rev List.length]. destruct (Z.ltb_spec s 10) as [Hlt|Hge].
  - destruct (Z.eq_dec k 1) as [->|Hk1]; [reflexivity|].
    assert (10 ^ 1 <= 10 ^ (k - 1)) by (apply Z.pow_le_mono_r; lia). lia.
  - assert (Hk2 : 2 <= k).
    { destruct (Z.eq_dec k 1) as [->|]; [cbn in Hs; lia|lia]. }
    rewrite (IH (s / 10) (k - 1)); [lia|lia|].
    split.
    + apply Z.div_le_lower_bound; [lia|].
      replace (k - 1 - 1) with (Z.pred (k - 1)) by lia.
      rewrite <- Z.pow_succ_r by lia. replace (Z.succ (Z.pred (k - 1))) with (k - 1) by lia. lia.
    + apply Z.div_lt_upper_bound; [lia|]. rewrite <- Z.pow_succ_r by lia.
      replace (Z.succ (k - 1)) with k by lia. lia.
Qed.

Lemma digits_facts (s : Z) :
  0 <= s < 10 ^ 20 ->
  dvalue (digits s) 0 = Some s /\ is_digits (digits s) /\ digits s <> [].
Proof.
  intros Hs. destruct (digits_rev_facts 20 s ltac:(exact Hs) ltac:(lia)) as (Hv & Hd & Hne).
  unfold digits. split; [exact Hv|split; [apply Forall_rev, Hd|]].
  intros E. apply (f_equal (@rev ascii)) in E. rewrite rev_involutive in E. exact (Hne E).
Qed.

Lemma digits_length (s k : Z) :
  1 <= k <= 20 -> 10 ^ (k - 1) <= s < 10 ^ k -> List.length (digits s) = Z.to_nat k.
Proof. intros Hk Hs. unfold digits. rewrite length_rev. apply digits_rev_length; lia. Qed.

End Digits.

(** ** Reading back what [fmt] writes *)

Section Reading.
Local Open Scope Z_scope.

Definition no_char (c : ascii) (l : list ascii) : Prop := forall x, In x l -> Ascii.eqb x c = false.

Lemma digit_eqb (d : Z) (c : ascii) :
  0 <= d <= 9 -> (nat_of_ascii c < 48 \/ 57 < nat_of_ascii c)%nat -> Ascii.eqb (digit d) c = false.
Proof.
  intros Hd Hc. destruct (Ascii.eqb (digit d) c) eqn:E; [|reflexivity].
  apply Ascii.eqb_eq in E. subst c. unfold digit in Hc. rewrite nat_ascii_embedding in Hc by lia. lia.
Qed.

Lemma digits_no_char (c : ascii) (l : list ascii) :
  is_digits l -> (nat_of_ascii c < 48 \/ 57 < nat_of_ascii c)%nat -> no_char c l.
Proof.
  intros Hl Hc x Hx. unfold is_digits in Hl. rewrite Forall_forall in Hl. destruct (Hl x Hx) as (d & Hd & ->).
  exact (digit_eqb d c Hd Hc).
Qed.

Lemma no_char_app (c : ascii) (l1 l2 : list ascii) : no_char c l1 -> no_char c l2 -> no_char c (l1 ++ l2).
Proof. intros H1 H2 x Hx. apply in_app_or in Hx as [Hx|Hx]; [exact (H1 x Hx)|exact (H2 x Hx)]. Qed.

Lemma no_char_cons (c x : ascii) (l : list ascii) : Ascii.eqb x c = false -> no_char c l -> no_char c (x :: l).
Proof. intros Hx Hl y [<-|Hy]; [exact Hx|exact (Hl y Hy)]. Qed.

Lemma is_digits_app (l1 l2 : list ascii) : is_digits l1 -> is_digits l2 -> is_digits (l1 ++ l2).
Proof. intros H1 H2. apply Forall_app. split; assumption. Qed.

Lemma is_digits_split (t : nat) (l : list ascii) :
  is_digits l -> is_digits (firstn t l) /\ is_digits (skipn t l).
Proof. intros Hl. unfold is_digits in *. rewrite <- (firstn_skipn t l) in Hl. apply Forall_app in Hl. exact Hl. Qed.

Lemma split_at_app (c : ascii) (l1 l2 : list ascii) :
  no_char c l1 -> split_at c (l1 ++ l2) = (l1 ++ fst (split_at c l2), snd (split_at c l2)).
Proof.
  induction l1 as [|x l1 IH]; intros Hno; cbn [app split_at].
  - destruct (split_at c l2); reflexivity.
  - rewrite (Hno x (or_introl eq_refl)), IH by (intros y Hy; apply Hno; right; exact Hy).
    reflexivity.
Qed.

Lemma split_at_none (c : ascii) (l : list ascii) : no_char c l -> split_at c l = (l, None).
Proof. intros Hno. rewrite <- (app_nil_r l), split_at_app by exact Hno. reflexivity. Qed.

Lemma mantissa_int (l : list ascii) :
  is_digits l -> l <> [] -> parse_mantissa l = option_map inject_Z (dvalue l 0).
Proof.
  intros Hd Hne. unfold parse_mantissa.
  rewrite split_at_none by (apply digits_no_char; [exact Hd|vm_compute; lia]).
  destruct l; [congruence|reflexivity].
Qed.

Lemma mantissa_frac (ip fp : list ascii) :
  is_digits ip -> is_digits fp -> ip <> [] -> fp <> [] ->
  parse_mantissa (ip ++ "."%char :: fp) =
    option_map (fun v => (inject_Z v * pow10 (- Z.of_nat (List.length fp)))%Q) (dvalue (ip ++ fp) 0).
Proof.
  intros Hi Hf Hin Hfn. unfold parse_mantissa.
  rewrite split_at_app by (apply digits_no_char; [exact Hi|vm_compute; lia]).
  cbn [split_at fst snd]. rewrite app_nil_r.
  destruct ip; [congruence|]. destruct fp; [congruence|]. reflexivity.
Qed.

Lemma number_no_exp (l : list ascii) :
  no_char "e"%char l -> parse_number (string_of_list_ascii l) = parse_mantissa l.
Proof.
  intros Hno. unfold parse_number. rewrite list_ascii_of_string_of_list_ascii, split_at_none by exact Hno.
  reflexivity.
Qed.

Lemma number_exp (mant ex : list ascii) :
  no_char "e"%char mant ->
  parse_number (string_of_list_ascii (mant ++ "e"%char :: ex)) =
    match parse_mantissa mant, parse_exp ex with
    | Some v, Some x => Some (v * pow10 x)%Q
    | _, _ => None
    end.
Proof.
  intros Hno. unfold parse_number. rewrite list_ascii_of_string_of_list_ascii, split_at_app by exact Hno.
  cbn [split_at fst snd]. rewrite app_nil_r. reflexivity.
Qed.

Lemma parse_exp_part (x : Z) :
  Z.abs x < 10 ^ 20 -> parse_exp ((if 0 <? x then "+"%char else "-"%char) :: digits (Z.abs x)) = Some x.
Proof.
  intros Hx. destruct (digits_facts (Z.abs x) ltac:(lia)) as (Hv & _ & Hne).
  destruct (digits (Z.abs x)) as [|c cs]; [congruence|].
  destruct (Z.ltb_spec 0 x); cbn [parse_exp]; rewrite Hv; cbn [option_map]; f_equal; lia.
Qed.

Lemma digits_e (l : list ascii) : is_digits l -> no_char "e"%char l.
Proof. intros Hl. apply digits_no_char; [exact Hl|vm_compute; lia]. Qed.

Lemma dot_not_e : Ascii.eqb "."%char "e"%char = false.
Proof. reflexivity. Qed.

End Reading.

(** ** Every layout reads back as [s * 10^(n-k)] *)

Lemma fmt_parse (s k n : Z) :
  (1 <= k <= 17)%Z -> (10 ^ (k - 1) <= s < 10 ^ k)%Z -> (-400 <= n <= 400)%Z ->
  exists q, parse_number (fmt s k n) = Some q /\ q == dec_val s k n.
Proof.
  intros Hk Hs Hn.
  assert (H10 : (0 < 10 ^ (k - 1))%Z) by (apply Z.pow_pos_nonneg; lia).
  assert (Hs20 : (0 <= s < 10 ^ 20)%Z).
  { split; [lia|]. eapply Z.lt_le_trans; [exact (proj2 Hs)|apply Z.pow_le_mono_r; lia]. }
  destruct (digits_facts s Hs20) as (Hv & Hd & Hne).
  pose proof (digits_length s k ltac:(lia) Hs) as Hlen.
  assert (He : (Z.abs (n - 1) < 10 ^ 20)%Z) by (eapply Z.lt_le_trans with (10 ^ 3)%Z; [lia|apply Z.pow_le_mono_r; lia]).
  unfold fmt, fmt_digits, dec_val. set (ds := digits s) in *. clearbody ds.
  destruct ((k <=? n) && (n <=? 21))%Z eqn:C1.
  { (* digits followed by zeros *)
    apply andb_true_iff in C1 as [C1 _]. apply Z.leb_le in C1.
    rewrite number_no_exp by (apply digits_e, is_digits_app; [exact Hd|apply zeros_digits]).
    rewrite mantissa_int; [|apply is_digits_app; [exact Hd|apply zeros_digits]|
                            intros E; apply app_eq_nil in E as [E _]; exact (Hne E)].
    rewrite dvalue_app, Hv, dvalue_zeros by lia. eexists. split; [reflexivity|].
    cbn [option_map]. rewrite pow10_Z, inject_Z_mult by lia. reflexivity. }
  destruct ((0 <? n) && (n <=? 21))%Z eqn:C2.
  { (* a point inside the digits *)
    apply andb_true_iff in C2 as [C2 C2']. apply Z.ltb_lt in C2. apply Z.leb_le in C2'.
    assert (Hnk : (n < k)%Z) by (apply andb_false_iff in C1 as [C1|C1]; apply Z.leb_gt in C1; lia).
    destruct (is_digits_split (Z.to_nat n) ds Hd) as [Hd1 Hd2].
    assert (Hl1 : List.length (firstn (Z.to_nat n) ds) = Z.to_nat n)
      by (rewrite length_firstn; lia).
    assert (Hl2 : List.length (skipn (Z.to_nat n) ds) = (Z.to_nat k - Z.to_nat n)%nat)
      by (rewrite length_skipn; lia).
    rewrite number_no_exp
      by (apply no_char_app; [apply digits_e, Hd1|apply no_char_cons; [exact dot_not_e|apply digits_e, Hd2]]).
    rewrite mantissa_frac by (assumption || (intros E; apply (f_equal (@List.length ascii)) in E;
                                             rewrite ?Hl1, ?Hl2 in E; cbn in E; lia)).
    rewrite firstn_skipn, Hv, Hl2. eexists. split; [reflexivity|].
    cbn [option_map]. replace (- Z.of_nat (Z.to_nat k - Z.to_nat n))%Z with (n - k)%Z by lia.
    reflexivity. }
  destruct ((-6 <? n) && (n <=? 0))%Z eqn:C3.
  { (* 0.000ddd *)
    apply andb_true_iff in C3 as [C3 C3']. apply Z.ltb_lt in C3. apply Z.leb_le in C3'.
    change ("0"%char :: "."%char :: zeros (- n) ++ ds) with ([digit 0] ++ "."%char :: (zeros (- n) ++ ds)).
    assert (Hd0 : is_digits [digit 0]) by (constructor; [exists 0%Z; split; [lia|reflexivity]|constructor]).
    assert (Hdz : is_digits (zeros (- n) ++ ds)) by (apply is_digits_app; [apply zeros_digits|exact Hd]).
    rewrite number_no_exp
      by (apply no_char_app; [apply digits_e, Hd0|apply no_char_cons; [exact dot_not_e|apply digits_e, Hdz]]).
    rewrite mantissa_frac; [|exact Hd0|exact Hdz|discriminate|
                            intros E; apply app_eq_nil in E as [_ E]; exact (Hne E)].
    rewrite dvalue_app. change (dvalue [digit 0] 0) with (Some 0%Z). cbv beta iota.
    rewrite dvalue_app, dvalue_zeros, Z.mul_0_l, Hv by lia. rewrite length_app, Hlen.
    unfold zeros at 1. rewrite repeat_length.
    eexists. split; [reflexivity|]. cbn [option_map].
    replace (- Z.of_nat (Z.to_nat (- n) + Z.to_nat k))%Z with (n - k)%Z by lia. reflexivity. }
  destruct (k =? 1)%Z eqn:C4.
  { (* d e+x *)
    apply Z.eqb_eq in C4. subst k.
    unfold exp_part. rewrite number_exp by (apply digits_e, Hd).
    rewrite mantissa_int by assumption. rewrite Hv, parse_exp_part by exact He.
    eexists. split; [reflexivity|]. cbn [option_map]. reflexivity. }
  (* d.ddd e+x *)
  apply Z.eqb_neq in C4.
  destruct (is_digits_split 1 ds Hd) as [Hd1 Hd2].
  assert (Hl2 : List.length (skipn 1 ds) = (Z.to_nat k - 1)%nat) by (rewrite length_skipn; lia).
  unfold exp_part. rewrite app_comm_cons, app_assoc.
  rewrite number_exp
    by (apply no_char_app; [apply digits_e, Hd1|apply no_char_cons; [exact dot_not_e|apply digits_e, Hd2]]).
  assert (Hip : firstn 1 ds <> []) by (destruct ds as [|c ds']; [congruence|discriminate]).
  assert (Hfp : skipn 1 ds <> []) by (intros E; rewrite E in Hl2; cbn in Hl2; lia).
  rewrite mantissa_frac by assumption.
  rewrite firstn_skipn, Hv, parse_exp_part, Hl2 by exact He.
  eexists. split; [reflexivity|]. cbn [option_map].
  rewrite <- Qmult_assoc, <- pow10_plus.
  replace (- Z.of_nat (Z.to_nat k - 1) + (n - 1))%Z with (n - k)%Z by lia. reflexivity.
Qed.

Lemma Qle_bool_compat (a a' b b' : Q) : a == a' -> b == b' -> Qle_bool a b = Qle_bool a' b'.
Proof.
  intros Ha Hb. destruct (Qle_bool a b) eqn:E1, (Qle_bool a' b') eqn:E2; try reflexivity.
  - apply Qle_bool_iff in E1. rewrite Ha, Hb in E1. apply Qle_bool_iff in E1. congruence.
  - apply Qle_bool_iff in E2. rewrite <- Ha, <- Hb in E2. apply Qle_bool_iff in E2. congruence.
Qed.

Lemma rounds_to_compat (d d' : Q) (m : positive) (e : Z) : d == d' -> rounds_to d m e = rounds_to d' m e.
Proof.
  intros E. unfold rounds_to, Qltb.
  rewrite !(Qle_bool_compat _ _ _ _ (Qeq_refl _) E), !(Qle_bool_compat _ _ _ _ E (Qeq_refl _)).
  reflexivity.
Qed.

(** What the search returns satisfies step 5, with [k <= 17] and an
    exponent within the range of doubles. *)
Lemma shortest_sound (m : positive) (e : Z) (s k n : Z) :
  valid_pos m e -> shortest m e = Some (s, k, n) ->
  es_ok m e s k n = true /\ (1 <= k <= 17)%Z /\ (-400 <= n <= 400)%Z /\
  (forall k', (1 <= k' < k)%Z -> cands m e k' = []).
Proof.
  intros Hv Hs. destruct (search_spec _ _ _ _ _ _ _ Hs) as (Hk & Hnone & c & cs & Ec & Ep).
  destruct (pick_spec m e k c cs) as (Hin & _ & _). rewrite Ep, <- Ec in Hin.
  pose proof (cands_sound _ _ _ _ Hin) as Hok. cbn [fst snd] in Hok.
  pose proof (ncands_complete _ _ _ _ _ Hv Hok) as Hn. unfold ncands in Hn. apply in_zrange in Hn.
  pose proof (bin_exp_range m e Hv).
  pose proof (dexp_range (bin_exp m e - 3) ltac:(lia)). pose proof (dexp_range (bin_exp m e + 1) ltac:(lia)).
  split; [exact Hok|]. split; [cbn in Hk; lia|]. split; [lia|exact Hnone].
Qed.

(** ** Round trip of the printed text *)

(** The text [Number::toString] writes for a positive finite double
    reads back, as a decimal literal, to a number that rounds to the
    same double. *)
Lemma print_roundtrip (x : float) (m : positive) (e : Z) :
  Prim2SF x = S754_finite false m e -> valid_pos m e ->
  exists q, parse_number (js_to_string x) = Some q /\ rounds_to q m e = true.
Proof.
  intros Hx Hv.
  destruct (shortest m e) as [[[s k] n]|] eqn:Hs; [|exfalso; exact (shortest_some m e Hv Hs)].
  destruct (shortest_sound _ _ _ _ _ Hv Hs) as (Hok & Hk & Hn & _).
  destruct (es_ok_range _ _ _ _ _ Hok) as (_ & Hsk & _ & _ & Hr).
  destruct (fmt_parse s k n Hk Hsk Hn) as (q & Hq & Eq).
  unfold js_to_string. rewrite Hx, Hs. exists q. split; [exact Hq|].
  rewrite (rounds_to_compat _ _ _ _ Eq). exact Hr.
Qed.

(** A number that rounds to a normal double [m * 2^e] is within half a
    unit in the last place of it, at most [2^-53] of its value. *)
Lemma rounds_to_close (q : Q) (m : positive) (e : Z) :
  rounds_to q m e = true -> (2 ^ 52 <= Zpos m)%Z ->
  Qabs (q - fval m e) <= (1 # 9007199254740992) * fval m e.
Proof.
  intros Hr Hm. destruct (rounds_to_between _ _ _ Hr) as [Hlo Hhi].
  pose proof (pow2_pos e) as HP.
  assert (Hlo' : (inject_Z (Zpos m) - (1 # 2)) * pow2 e <= lo_of m e).
  { unfold lo_of. destruct (_ && _); [apply Qmult_le_compat_r; lra|apply Qle_refl]. }
  unfold hi_of in Hhi. unfold fval.
  assert (HmQ : inject_Z (2 ^ 52) <= inject_Z (Zpos m)) by (rewrite <- Zle_Qle; exact Hm).
  change (inject_Z (2 ^ 52)) with (4503599627370496 # 1) in HmQ.
  assert (H1 : (1 # 2) * pow2 e <= (1 # 9007199254740992) * (inject_Z (Zpos m) * pow2 e)).
  { assert (W : (1 # 9007199254740992) * (inject_Z (Zpos m) * pow2 e)
                == ((1 # 9007199254740992) * inject_Z (Zpos m)) * pow2 e) by ring.
    rewrite W. apply Qmult_le_compat_r; lra. }
  apply Qabs_Qle_condition. split; lra.
Qed.

(** The value [Q_of_float] gives a positive finite double is [fval]. *)
Lemma Q_of_finite_fval (m : positive) (e : Z) : Double.Q_of_finite false m e == fval m e.
Proof.
  unfold Double.Q_of_finite, fval. fold (pow2 e). destruct e as [|p|p].
  - unfold pow2. simpl. ring.
  - rewrite inject_Z_mult, Pos2Z.inj_pow, pow2_Z by lia. reflexivity.
  - rewrite pow2_neg by lia. change (- Zneg p)%Z with (Zpos p).
    rewrite <- Pos2Z.inj_pow, Qmake_Qdiv. reflexivity.
Qed.

(** The two roundings add up: the text is within [2^-53] of the double,
    which is within [10^-15] of the exact value. *)
Lemma close_combine (q y f : Q) :
  Qabs (q - y) <= (1 # 9007199254740992) * y ->
  Qabs (y - f) <= (1 # 1000000000000000) * f ->
  Qabs (q - f) <= (1 # 500000000000000) * f.
Proof. rewrite !Qabs_Qle_condition. lra. Qed.

Lemma all_normal_or_zero_spec (N n k : Z) :
  all_normal_or_zero N = true -> (N <= 21)%Z -> (0 <= k <= n /\ n <= N)%Z ->
  match Double.F_double n k with Some x => normal_or_zero x = true | None => False end.
Proof.
  unfold all_normal_or_zero. cbv zeta. rewrite forallb_forall. intros Hall HN Hk.
  specialize (Hall (n, k) (proj2 (in_triangle n k N) Hk)). cbn [fst snd] in Hall.
  rewrite Double.double_of_fill in Hall by exact HN.
  destruct (Double.F_double n k); [exact Hall|discriminate Hall].
Qed.

Lemma all_normal_or_zero_21 : all_normal_or_zero 21 = true.
Proof. vm_compute. reflexivity. Qed.

(** ** What the program prints *)

(** C14.  What the program prints is the exact value to fifteen
    significant digits.  For every call [F(n, k)] with
    [0 <= k <= n <= 21], the two calls of lines 17-18 among them, the
    text [console.log] writes for the double the program computes reads
    back, as a decimal literal, to a number within relative error
    [2 * 10^-15] of the exact value [Fq n k].  The arithmetic of lines
    2-13 contributes less than [10^-15], the printing at most [2^-53]. *)
Theorem printed_close (n k : Z) :
  (0 <= k <= n /\ n <= 21)%Z ->
  exists x q, Double.F_double n k = Some x /\ parse_number (js_to_string x) = Some q /\
    Qabs (q - Exact.Fq n k) <= (1 # 500000000000000) * Exact.Fq n k.
Proof.
  intros Hnk.
  pose proof (Double.all_close_spec _ 21 n k Double.all_close_21 ltac:(lia) Hnk) as Hc.
  pose proof (all_normal_or_zero_spec 21 n k all_normal_or_zero_21 ltac:(lia) Hnk) as Hz.
  unfold Double.within in Hc. destruct (Double.F_double n k) as [x|]; [|destruct Hz].
  exists x. unfold Double.Q_of_float in Hc. unfold normal_or_zero in Hz.
  destruct (Prim2SF x) as [[]|[]| |[] m e] eqn:Ex; try discriminate Hz.
  - exists 0. split; [reflexivity|]. split; [unfold js_to_string; rewrite Ex; reflexivity|].
    apply Qle_bool_iff in Hc. refine (close_combine _ _ _ _ Hc).
    rewrite Qabs_Qle_condition. lra.
  - apply andb_prop in Hz as [Hz He2]. apply andb_prop in Hz as [Hz He1].
    apply andb_prop in Hz as [Hm1 Hm2].
    apply Z.leb_le in Hm1, He1, He2. apply Z.ltb_lt in Hm2.
    assert (Hv : valid_pos m e) by (unfold valid_pos; lia).
    destruct (print_roundtrip x m e Ex Hv) as (q & Hq & Hr).
    exists q. split; [reflexivity|]. split; [exact Hq|].
    apply Qle_bool_iff in Hc. rewrite Q_of_finite_fval in Hc.
    exact (close_combine _ _ _ (rounds_to_close q m e Hr Hm1) Hc).
Qed.

(** The first line the program prints, [F(21, 3)], reads back to within
    [2 * 10^-15] of the exact value. *)
Lemma printed_close_witness :
  (0 <= 3 <= 21 /\ 21 <= 21)%Z /\
  exists x q, Double.F_double 21 3 = Some x /\ parse_number (js_to_string x) = Some q /\
    Qabs (q - Exact.Fq 21 3) <= (1 # 500000000000000) * Exact.Fq 21 3.
Proof. split; [lia|]. apply printed_close. lia. Defined.

End Print.
